(** * cocaine.detail.baseservice: the connection and session core of a service

    A shallow embedding of [BaseService] (src/cocaine/detail/baseservice.py):
    the endpoint race of [connect], the teardown of [disconnect], the frame
    routing of [on_read] and the dispatch of [_invoke].

    The object's attributes are the fields of a record that every method
    takes and returns.  What the methods do to their collaborators (the
    transport handle, the receive sides of the sessions) is appended to an
    event list kept next to the attributes.  Log calls are left out: they
    format lazily and never raise.

    The service runs on one cooperative scheduler: a method runs without
    interruption up to its next [yield].  [connect] holds its lock across
    its yields and is taken as one step.  [_invoke] is cut at the yield of
    its write into [invoke_start] and [invoke_finish], between which other
    methods may run; [_invoke] itself is the two in a row. *)

From Stdlib Require Import ZArith List String Ascii.
From Stdlib.Strings Require Import Byte.
From Stdlib Require Import Floats.SpecFloat.
From stdpp Require Import base gmap list strings pretty.

Set Warnings "-register-all".
Local Open Scope Z_scope.

(** ** Values carried by frames *)

(** What the unpacker hands to [on_read], and what [_invoke] packs: nil,
    booleans, integers, floats, text strings, byte strings, arrays and
    maps.  Byte strings are as Python 3 has them: their items are
    integers. *)
Inductive Value :=
| VNone
| VBool (b : bool)
| VInt (z : Z)
| VFloat (f : spec_float)
| VStr (s : string)
| VBytes (b : list byte)
| VList (l : list Value)
| VDict (items : list (Value * Value)).

(** [msg[:3]]: lists, strings and byte strings can be sliced, anything
    else raises (not subscriptable, or a slice used as a dictionary key).
    The items of the slice of a string are strings of one character,
    those of a byte string are the integers of its bytes, as in
    Python 3. *)
Definition slice3 (msg : Value) : option (list Value) :=
  match msg with
  | VList l => Some (take 3 l)
  | VStr s => Some ((λ c, VStr (String c EmptyString)) <$> take 3 (list_ascii_of_string s))
  | VBytes b => Some ((λ x, VInt (Z.of_N (Byte.to_N x))) <$> take 3 b)
  | _ => None
  end.

(** [session, message_type, payload = ...]: exactly three items or an error. *)
Definition unpack3 (l : list Value) : option (Value * Value * Value) :=
  match l with
  | [a; b; c] => Some (a, b, c)
  | _ => None
  end.

(** The integer a float is equal to, if any. *)
Definition float_integer (f : spec_float) : option Z :=
  match f with
  | S754_zero _ => Some 0
  | S754_finite sgn m e =>
      let v := if sgn then Z.neg m else Z.pos m in
      if 0 <=? e then Some (v * 2 ^ e)
      else if Z.pos m mod 2 ^ (- e) =? 0 then Some (v / 2 ^ (- e))
      else None
  | _ => None
  end.

(** A value used as a dictionary key.  Arrays are unpacked to lists, and
    lists and maps are unhashable.  Booleans and integral floats hash and
    compare like the integer they equal; every other value is a key that
    no integer equals. *)
Inductive Key :=
| KInt (z : Z)
| KOther.

Definition py_key (v : Value) : option Key :=
  match v with
  | VList _ | VDict _ => None
  | VInt z => Some (KInt z)
  | VBool b => Some (KInt (if b then 1 else 0))
  | VFloat f => Some (match float_integer f with Some z => KInt z | None => KOther end)
  | VNone | VStr _ | VBytes _ => Some KOther
  end.

(** ** Exceptions and results *)

Inductive Exn :=
| Exception (msg : string)
| AttributeError (attr : string)
| TypeError (msg : string)
| DisconnectionError (servicename : string)
| StreamError (msg : string)
| UnpackError (msg : string).

Inductive Result (A : Type) :=
| Return (a : A)
| Raise (e : Exn).
Arguments Return {A} a.
Arguments Raise {A} e.

(** ** Transport handles, endpoints, events *)

(** A transport handle is known by a number the event loop gave it. *)
Definition Pipe := nat.

Definition Endpoint := (string * Z)%type.

Inductive Event :=
| Connecting (host : string) (port : Z)
| SetNodelay (p : Pipe)
| ReadUntilClose (p : Pipe)
| PipeWrite (p : Pipe) (data : list byte)
| PipeClose (p : Pipe)
| RxPush (session : Z) (message_type payload : Value)
| RxError (session : Z) (e : Exn).

(** One connection attempt as the wait iterator yields it: the endpoint it
    was launched for ([self.endpoints[connectors.current_index]]) and either
    the error it raised or the handle it produced. *)
Definition Attempt := (Endpoint * (string + Pipe))%type.

(** ** Dictionaries whose order shows *)

(** [d[k] = v] on an insertion-ordered dictionary. *)
Fixpoint dict_set {K V} `{EqDecision K} (k : K) (v : V) (d : list (K * V)) : list (K * V) :=
  match d with
  | [] => [(k, v)]
  | (k', v') :: d' => if decide (k = k') then (k, v) :: d' else (k', v') :: dict_set k v d'
  end.

Fixpoint join (sep : string) (l : list string) : string :=
  match l with
  | [] => ""
  | [x] => x
  | x :: l' => x +:+ sep +:+ join sep l'
  end.

(** ["%s:%d %s" % (addr[0], addr[1], msg)] *)
Definition format_error (item : Endpoint * string) : string :=
  fst (fst item) +:+ ":" +:+ pretty (snd (fst item)) +:+ " " +:+ snd item.

Definition error_msg (errors : list (Endpoint * string)) : string :=
  join ", " (format_error <$> errors).

(** ** Collaborators that live outside this file *)

(** The protocol trees of the API, the receive side of a channel, the
    packer and the streaming unpacker are used through these operations
    only, and the calls of the receive side and of the packer are taken to
    return normally.  [unpack_one] takes one complete value from the front
    of the buffered bytes, or nothing when the bytes do not hold one;
    [unpack_error] tells whether the bytes at the front are such that the
    unpacker raises instead of waiting for more, and with which error.
    What the unpacker holds once it has raised is not described: the model
    keeps the bytes, and no statement speaks of them.  The unpacker is
    taken to have room for what it is fed. *)
Class Externals (Tree Rx : Type) := {
  Rx_new : Tree → string → Rx;
  Rx_push : Value → Value → Rx → Rx;
  Rx_closed : Rx → bool;
  msgpack_packb : Value → list byte;
  unpack_one : list byte → option (Value * list byte);
  unpack_error : list byte → option string;
}.

Section Service.
Context {Tree Rx : Type} {Ext : Externals Tree Rx}.

Record Tx := mkTx {
  tx_tree : Tree;
  tx_pipe : option Pipe;
  tx_session : Z;
}.

Record Channel := mkChannel {
  rx : Rx;
  tx : Tx;
}.

(** ** The service object *)

(** [buffer] holds the bytes fed to the unpacker and not yet consumed.
    [counter] is the value the next [next(self.counter)] returns.  [api] is
    the dictionary's items in iteration order: method id, then method name
    and the two protocol trees.  The last two fields are bookkeeping of the
    model: the events performed so far and the ids [next(self.counter)]
    returned so far, oldest first. *)
Record BaseService := mkService {
  name : string;
  endpoints : list Endpoint;
  sessions : gmap Z Rx;
  counter : Z;
  api : list (Z * (string * Tree * Tree));
  pipe : option Pipe;
  address : option Endpoint;
  buffer : list byte;
  events : list Event;
  issued : list Z;
}.

Definition __init__ (name : string) (endpoints : list Endpoint) : BaseService :=
  {| name := name; endpoints := endpoints; sessions := ∅; counter := 1; api := [];
     pipe := None; address := None; buffer := []; events := []; issued := [] |}.

Definition set_sessions (d : gmap Z Rx) (s : BaseService) : BaseService :=
  {| name := name s; endpoints := endpoints s; sessions := d; counter := counter s;
     api := api s; pipe := pipe s; address := address s; buffer := buffer s;
     events := events s; issued := issued s |}.

Definition set_pipe (p : option Pipe) (s : BaseService) : BaseService :=
  {| name := name s; endpoints := endpoints s; sessions := sessions s; counter := counter s;
     api := api s; pipe := p; address := address s; buffer := buffer s;
     events := events s; issued := issued s |}.

Definition set_address (a : option Endpoint) (s : BaseService) : BaseService :=
  {| name := name s; endpoints := endpoints s; sessions := sessions s; counter := counter s;
     api := api s; pipe := pipe s; address := a; buffer := buffer s;
     events := events s; issued := issued s |}.

Definition set_buffer (b : list byte) (s : BaseService) : BaseService :=
  {| name := name s; endpoints := endpoints s; sessions := sessions s; counter := counter s;
     api := api s; pipe := pipe s; address := address s; buffer := b;
     events := events s; issued := issued s |}.

Definition set_api (a : list (Z * (string * Tree * Tree))) (s : BaseService) : BaseService :=
  {| name := name s; endpoints := endpoints s; sessions := sessions s; counter := counter s;
     api := a; pipe := pipe s; address := address s; buffer := buffer s;
     events := events s; issued := issued s |}.

(** [next(self.counter)] *)
Definition next_counter (s : BaseService) : Z * BaseService :=
  (counter s,
   {| name := name s; endpoints := endpoints s; sessions := sessions s;
      counter := counter s + 1; api := api s; pipe := pipe s; address := address s;
      buffer := buffer s; events := events s; issued := issued s ++ [counter s] |}).

Definition emit (evs : list Event) (s : BaseService) : BaseService :=
  {| name := name s; endpoints := endpoints s; sessions := sessions s; counter := counter s;
     api := api s; pipe := pipe s; address := address s; buffer := buffer s;
     events := events s ++ evs; issued := issued s |}.

Definition _connected (s : BaseService) : bool :=
  match pipe s with Some _ => true | None => false end.

(** ** connect *)

(** The done-callback put on the attempts still in flight once a winner is
    chosen: a handle that arrives later is closed, an error is dropped.
    The losers are listed here in the order they complete.  The code
    closes those that are already done in the order of the endpoint list,
    and the others when they complete; the order among these closes is
    not tracked, and no statement below depends on it. *)
Fixpoint cancellation (rest : list Attempt) : list Event :=
  match rest with
  | [] => []
  | (_, inr p) :: rest' => PipeClose p :: cancellation rest'
  | (_, inl _) :: rest' => cancellation rest'
  end.

(** The [while not connectors.done()] loop, over the attempts in the order
    they complete. *)
Fixpoint race (completions : list Attempt) (errors : list (Endpoint * string))
    (s : BaseService) : BaseService * Result unit :=
  match completions with
  | [] => (s, Raise (Exception ("unable to establish connection: " +:+ error_msg errors)))
  | (ep, inr p) :: rest =>
      (set_address (Some ep)
         (emit ([SetNodelay p; ReadUntilClose p] ++ cancellation rest)
            (set_pipe (Some p) s)),
       Return ())
  | (ep, inl err) :: rest => race rest (dict_set ep err errors) s
  end.

(** [connect] holds its lock from the second check to the end, so it is one
    step of the service. *)
Definition connect (completions : list Attempt) (s : BaseService) : BaseService * Result unit :=
  if _connected s then (s, Return ())
  else race completions [] (emit ((λ ep, Connecting (fst ep) (snd ep)) <$> endpoints s) s).

(** ** disconnect, on_close *)

(** [sessions.popitem()].  The table does not keep the order in which its
    keys were inserted, so which session is popped first is not the
    code's choice; the statements on the teardown are up to that order. *)
Definition popitem (d : gmap Z Rx) : option (Z * Rx * gmap Z Rx) :=
  match map_to_list d with
  | [] => None
  | (k, v) :: _ => Some (k, v, delete k d)
  end.

(** [while sessions: _, rx = sessions.popitem(); rx.error(...)] *)
Fixpoint drain (fuel : nat) (s : BaseService) : BaseService :=
  match fuel with
  | O => s
  | S fuel' =>
      match popitem (sessions s) with
      | None => s
      | Some (k, _, d) =>
          drain fuel' (emit [RxError k (DisconnectionError (name s))] (set_sessions d s))
      end
  end.

Definition disconnect (s : BaseService) : BaseService :=
  match pipe s with
  | None => s
  | Some p => drain (size (sessions s)) (set_pipe None (emit [PipeClose p] s))
  end.

Definition on_close (s : BaseService) : BaseService := disconnect s.

(** ** on_read *)

(** One step of the unpacker's iterator when it yields a value.  A step
    that would consume no byte yields none. *)
Definition unpacker_next (bs : list byte) : option (Value * list byte) :=
  match unpack_one bs with
  | Some (v, rest) => if decide (length rest < length bs)%nat then Some (v, rest) else None
  | None => None
  end.

(** The values [for msg in self.buffer] yields, each with the bytes left
    in the unpacker once it has been taken out. *)
Fixpoint unpack_all (fuel : nat) (bs : list byte) : list (Value * list byte) :=
  match fuel with
  | O => []
  | S fuel' =>
      match unpacker_next bs with
      | None => []
      | Some (v, rest) => (v, rest) :: unpack_all fuel' rest
      end
  end.

Definition frames (bs : list byte) : list Value := fst <$> unpack_all (length bs) bs.

(** The body of the loop for one message.  The [try] covers the
    unpacking of the three fields only; [self.sessions.get(session)] is
    outside of it. *)
Definition route (msg : Value) (s : BaseService) : BaseService * Result unit :=
  match slice3 msg ≫= unpack3 with
  | None => (s, Return ())
  | Some (session, message_type, payload) =>
      match py_key session with
      | None => (s, Raise (TypeError "unhashable type"))
      | Some KOther => (s, Return ())
      | Some (KInt k) =>
          match sessions s !! k with
          | None => (s, Return ())
          | Some r =>
              let r' := Rx_push message_type payload r in
              (set_sessions
                 (if Rx_closed r' then delete k (sessions s) else <[k := r']> (sessions s))
                 (emit [RxPush k message_type payload] s),
               Return ())
          end
      end
  end.

(** [for msg in self.buffer]: the body is run for each value that the
    unpacker yields.  When it yields no more, the iteration ends, unless
    the bytes that are left make the unpacker raise: the iterator is
    outside of the [try], so that error leaves [on_read].  What the
    unpacker holds after such an error is not known here; the bytes are
    kept as they were. *)
Fixpoint on_read_loop (msgs : list (Value * list byte)) (s : BaseService)
    : BaseService * Result unit :=
  match msgs with
  | [] =>
      match unpack_error (buffer s) with
      | Some e => (s, Raise (UnpackError e))
      | None => (s, Return ())
      end
  | (msg, rest) :: msgs' =>
      match route msg (set_buffer rest s) with
      | (s', Return _) => on_read_loop msgs' s'
      | (s', Raise e) => (s', Raise e)
      end
  end.

Definition on_read (read_bytes : list byte) (s : BaseService) : BaseService * Result unit :=
  let bs := buffer s ++ read_bytes in
  on_read_loop (unpack_all (length bs) bs) (set_buffer bs s).

(** ** _invoke *)

(** [for method_id, (method, tx_tree, rx_tree) in self.api.items()]: the
    first entry whose method name matches. *)
Fixpoint find_method (method_name : string) (items : list (Z * (string * Tree * Tree)))
    : option (Z * Tree * Tree) :=
  match items with
  | [] => None
  | (method_id, (method, tx_tree, rx_tree)) :: items' =>
      if decide (method = method_name) then Some (method_id, tx_tree, rx_tree)
      else find_method method_name items'
  end.

(** What a dispatch that waits for its write still holds. *)
Record Pending := mkPending {
  pending_counter : Z;
  pending_tx_tree : Tree;
  pending_rx_tree : Tree;
}.

Inductive Progress :=
| Finished (r : Result Channel)
| Writing (k : Pending).

(** [_invoke] up to [yield self.pipe.write(...)]: the call to [write] has
    been made and the coroutine waits for it.  With no live handle the
    attribute lookup on [None] raises. *)
Definition invoke_start (method_name : string) (args : list Value)
    (completions : list Attempt) (s : BaseService) : BaseService * Progress :=
  match connect completions s with
  | (s1, Raise e) => (s1, Finished (Raise e))
  | (s1, Return _) =>
      match find_method method_name (api s1) with
      | None => (s1, Finished (Raise (AttributeError method_name)))
      | Some (method_id, tx_tree, rx_tree) =>
          let '(counter, s2) := next_counter s1 in
          match pipe s2 with
          | None => (s2, Finished (Raise (AttributeError "write")))
          | Some p =>
              (emit [PipeWrite p (msgpack_packb (VList [VInt counter; VInt method_id; VList args]))] s2,
               Writing (mkPending counter tx_tree rx_tree))
          end
      end
  end.

(** [_invoke] from the point where the write is over: [written] is the
    error the write raised, if any. *)
Definition invoke_finish (k : Pending) (written : option string) (s : BaseService)
    : BaseService * Result Channel :=
  match written with
  | Some err => (s, Raise (StreamError err))
  | None =>
      let r := Rx_new (pending_rx_tree k) (name s) in
      let t := mkTx (pending_tx_tree k) (pipe s) (pending_counter k) in
      (set_sessions (<[pending_counter k := r]> (sessions s)) s, Return (mkChannel r t))
  end.

(** A dispatch whose write is over before anything else runs. *)
Definition _invoke (method_name : string) (args : list Value)
    (completions : list Attempt) (written : option string) (s : BaseService)
    : BaseService * Result Channel :=
  match invoke_start method_name args completions s with
  | (s1, Finished r) => (s1, r)
  | (s1, Writing k) => invoke_finish k written s1
  end.

(** Reached for the names that are neither attributes nor methods of the
    object: the call of the returned function is the dispatch. *)
Definition __getattr__ (name : string) (args : list Value)
    (completions : list Attempt) (written : option string) (s : BaseService)
    : BaseService * Result Channel :=
  _invoke name args completions written s.

(** ** __del__, weak_wrapper *)

(** [__del__]: the owned connection is closed when the object goes. *)
Definition __del__ (s : BaseService) : BaseService := disconnect s.

(** What the transport tells the service through the two callbacks that
    [connect] hands to [read_until_close]: the partial applications of
    [weak_wrapper] to "on_close" and to "on_read". *)
Inductive Notification :=
| PipeClosed
| Chunk (read_bytes : list byte).

(** [weak_wrapper]: [weak_service] is what the weak reference gives, the
    service or nothing once it has been collected; with nothing the call
    returns at once. *)
Definition weak_wrapper (weak_service : option BaseService) (n : Notification)
    : option (BaseService * Result unit) :=
  match weak_service with
  | None => None
  | Some service =>
      Some (match n with
            | PipeClosed => (on_close service, Return ())
            | Chunk read_bytes => on_read read_bytes service
            end)
  end.

(** ** Runs of a service *)

Inductive Op :=
| OpSetApi (a : list (Z * (string * Tree * Tree)))
| OpConnect (completions : list Attempt)
| OpDisconnect
| OpOnClose
| OpOnRead (read_bytes : list byte)
| OpCall (method_name : string) (args : list Value) (completions : list Attempt)
    (written : option string).

Definition run_op (s : BaseService) (op : Op) : BaseService :=
  match op with
  | OpSetApi a => set_api a s
  | OpConnect completions => fst (connect completions s)
  | OpDisconnect => disconnect s
  | OpOnClose => on_close s
  | OpOnRead read_bytes => fst (on_read read_bytes s)
  | OpCall method_name args completions written =>
      fst (__getattr__ method_name args completions written s)
  end.

Definition run (ops : list Op) (s : BaseService) : BaseService := foldl run_op s ops.

(** The states reached by operations that each run to their end before
    the next one starts: a dispatch is one step here.  A dispatch that
    waits for its write while other methods run is followed through
    [invoke_start] and [invoke_finish]. *)
Definition reachable (s : BaseService) : Prop :=
  ∃ name endpoints ops, s = run ops (__init__ name endpoints).

(** ** Notions used in the statements *)

Definition failed (a : Attempt) : Prop := ∃ err, a.2 = inl err.

(** What the loop of [race] has put in [errors] once every attempt has
    failed. *)
Definition collect (cs : list Attempt) (errors : list (Endpoint * string))
    : list (Endpoint * string) :=
  foldl (λ d a, match a.2 with inl err => dict_set a.1 err d | inr _ => d end) errors cs.

(** What the receive side registered under [k] was given, in order. *)
Definition pushes_to (k : Z) (evs : list Event) : list (Value * Value) :=
  omap (λ e, match e with
             | RxPush k' message_type payload =>
                 if decide (k' = k) then Some (message_type, payload) else None
             | _ => None
             end) evs.

(** The three fields of a frame, with the table key its session field
    stands for. *)
Definition frame_for (k : Z) (message_type payload : Value) (msg : Value) : Prop :=
  ∃ session, slice3 msg ≫= unpack3 = Some (session, message_type, payload)
             ∧ py_key session = Some (KInt k).

(** The table holds sessions only while a handle is live. *)
Definition table_needs_pipe (s : BaseService) : Prop :=
  sessions s ≠ ∅ → is_Some (pipe s).

(** Either the counter was not touched or it gave out its value. *)
Definition counter_step (s s' : BaseService) : Prop :=
  (counter s' = counter s ∧ issued s' = issued s)
  ∨ (counter s' = counter s + 1 ∧ issued s' = issued s ++ [counter s]).

(** The events of the endpoint race. *)
Definition connection_event (e : Event) : bool :=
  match e with
  | Connecting _ _ | SetNodelay _ | ReadUntilClose _ | PipeClose _ => true
  | _ => false
  end.

Definition is_push (e : Event) : bool :=
  match e with
  | RxPush _ _ _ => true
  | _ => false
  end.

(** The session field of a frame can be used as a key of the table. *)
Definition hashable_session (msg : Value) : Prop :=
  ∀ session message_type payload,
    slice3 msg ≫= unpack3 = Some (session, message_type, payload) → is_Some (py_key session).

Definition is_call (op : Op) : bool :=
  match op with
  | OpCall _ _ _ _ => true
  | _ => false
  end.

Definition is_read (op : Op) : bool :=
  match op with
  | OpOnRead _ => true
  | _ => false
  end.

Definition succeeded (a : Attempt) : Prop := ∃ p, a.2 = inr p.

(** The handles that a list of attempts produced. *)
Definition handles (cs : list Attempt) : list Pipe :=
  omap (λ a, match a.2 with inr p => Some p | inl _ => None end) cs.

(** The bytes that are left in the unpacker when every complete value
    has been taken from [bs]. *)
Definition remainder (bs : list byte) : list byte :=
  default bs (last (unpack_all (length bs) bs).*2).

(** [sub] occurs in [str]. *)
Definition occurs_in (sub str : string) : Prop :=
  ∃ before after, str = before +:+ sub +:+ after.

(** Every handle the service has started to read from has been closed or
    is the live one. *)
Definition handles_accounted (s : BaseService) : Prop :=
  ∀ p, ReadUntilClose p ∈ events s → PipeClose p ∈ events s ∨ pipe s = Some p.

(** No id at or above the counter is in the table. *)
Definition ids_below_counter (s : BaseService) : Prop :=
  ∀ k, counter s ≤ k → sessions s !! k = None.

End Service.

(** ** A small instance to run the model on *)

Module Sample.

(** Modelled from the spec: the receive side of a channel
    (cocaine/detail/channel.py is not among the sources).  The core needs
    it to take [push(message_type, payload)] and to answer whether it is
    closed.  This one keeps what it is given and closes on the message
    types listed in its tree. *)
Record SampleRx := mkRx {
  rx_servicename : string;
  rx_closing : list Z;
  rx_queue : list (Value * Value);
  rx_done : bool;
}.

Definition sample_new (tree : list Z) (servicename : string) : SampleRx :=
  mkRx servicename tree [] false.

Definition closes (tree : list Z) (message_type : Value) : bool :=
  match message_type with
  | VInt z => bool_decide (z ∈ tree)
  | _ => false
  end.

Definition sample_push (message_type payload : Value) (r : SampleRx) : SampleRx :=
  mkRx (rx_servicename r) (rx_closing r) (rx_queue r ++ [(message_type, payload)])
    (rx_done r || closes (rx_closing r) message_type).

Definition byte_of_Z (z : Z) : byte :=
  match Byte.of_N (Z.to_N z) with Some b => b | None => x00 end.

Definition Z_of_byte (b : byte) : Z := Z.of_N (Byte.to_N b).

(** The packer on the small families of the wire format: nil, booleans,
    integers from -32 to 127, strings shorter than 32, byte strings
    shorter than 256, arrays and maps shorter than 16.  Other values are
    outside of this instance and pack to no bytes. *)
Fixpoint sample_packb (v : Value) : list byte :=
  match v with
  | VNone => [xc0]
  | VBool false => [xc2]
  | VBool true => [xc3]
  | VInt z =>
      if (0 <=? z) && (z <? 128) then [byte_of_Z z]
      else if (-32 <=? z) && (z <? 0) then [byte_of_Z (256 + z)]
      else []
  | VFloat _ => []
  | VStr s =>
      if (String.length s <? 32)%nat then
        byte_of_Z (160 + Z.of_nat (String.length s)) :: (byte_of_ascii <$> list_ascii_of_string s)
      else []
  | VBytes b =>
      if (length b <? 256)%nat then xc4 :: byte_of_Z (Z.of_nat (length b)) :: b
      else []
  | VList l =>
      if (length l <? 16)%nat then
        byte_of_Z (144 + Z.of_nat (length l)) :: concat (map sample_packb l)
      else []
  | VDict items =>
      if (length items <? 16)%nat then
        byte_of_Z (128 + Z.of_nat (length items))
          :: concat (map (λ kv, sample_packb (fst kv) ++ sample_packb (snd kv)) items)
      else []
  end.

(** What the unpacker finds at the front of the bytes: not enough for a
    value, a value and the bytes behind it, or bytes that begin no value. *)
Inductive Unpacked (A : Type) :=
| NeedMore
| Got (a : A) (rest : list byte)
| Malformed.
Arguments NeedMore {A}.
Arguments Got {A} a rest.
Arguments Malformed {A}.

Fixpoint unpack_seq (one : list byte → Unpacked Value) (n : nat) (bs : list byte)
    : Unpacked (list Value) :=
  match n with
  | O => Got [] bs
  | S n' =>
      match one bs with
      | NeedMore => NeedMore
      | Malformed => Malformed
      | Got v rest =>
          match unpack_seq one n' rest with
          | NeedMore => NeedMore
          | Malformed => Malformed
          | Got vs rest' => Got (v :: vs) rest'
          end
      end
  end.

Fixpoint pair_up (vs : list Value) : list (Value * Value) :=
  match vs with
  | k :: v :: vs' => (k, v) :: pair_up vs'
  | _ => []
  end.

(** The unpacker on the same families.  The header byte c1, which the
    format never uses, begins no value.  A value that is not complete
    yet, or of another family, is not produced. *)
Fixpoint unpack_value (fuel : nat) (bs : list byte) : Unpacked Value :=
  match fuel, bs with
  | S fuel', b :: rest =>
      let n := Z_of_byte b in
      if n <? 128 then Got (VInt n) rest
      else if n <? 144 then
        match unpack_seq (unpack_value fuel') (2 * Z.to_nat (n - 128)) rest with
        | Got vs rest' => Got (VDict (pair_up vs)) rest'
        | NeedMore => NeedMore
        | Malformed => Malformed
        end
      else if n <? 160 then
        match unpack_seq (unpack_value fuel') (Z.to_nat (n - 144)) rest with
        | Got vs rest' => Got (VList vs) rest'
        | NeedMore => NeedMore
        | Malformed => Malformed
        end
      else if n <? 192 then
        let len := Z.to_nat (n - 160) in
        if (length rest <? len)%nat then NeedMore
        else Got (VStr (string_of_list_ascii (ascii_of_byte <$> take len rest))) (drop len rest)
      else if n =? 192 then Got VNone rest
      else if n =? 193 then Malformed
      else if n =? 194 then Got (VBool false) rest
      else if n =? 195 then Got (VBool true) rest
      else if n =? 196 then
        match rest with
        | [] => NeedMore
        | l :: rest' =>
            let len := Z.to_nat (Z_of_byte l) in
            if (length rest' <? len)%nat then NeedMore
            else Got (VBytes (take len rest')) (drop len rest')
        end
      else if 224 <=? n then Got (VInt (n - 256)) rest
      else NeedMore
  | _, _ => NeedMore
  end.

Definition sample_unpack_one (bs : list byte) : option (Value * list byte) :=
  match unpack_value (S (length bs)) bs with
  | Got v rest => Some (v, rest)
  | _ => None
  end.

Definition sample_unpack_error (bs : list byte) : option string :=
  match unpack_value (S (length bs)) bs with
  | Malformed => Some "unpack failed"
  | _ => None
  end.

#[export] Instance sample : Externals (list Z) SampleRx := {|
  Rx_new := sample_new;
  Rx_push := sample_push;
  Rx_closed := rx_done;
  msgpack_packb := sample_packb;
  unpack_one := sample_unpack_one;
  unpack_error := sample_unpack_error;
|}.

(** The API with the one method echo under id 1; its receive side closes
    on message type 1. *)
Definition echo_api : list (Z * (string * list Z * list Z)) := [(1, ("echo", [], [1]))].

(** A service that has not connected yet, with two endpoints. *)
Definition fresh_service : BaseService :=
  run [OpSetApi echo_api] (__init__ "echo-service" [("a", 1); ("b", 2)]).

(** The same service once the attempt on the first endpoint has given
    handle 7 and the other attempt has failed. *)
Definition echo_service : BaseService :=
  run [OpConnect [(("a", 1), inr 7%nat); (("b", 2), inl "refused")]] fresh_service.

(** A service whose list of endpoints names one endpoint twice. *)
Definition doubled_service : @BaseService (list Z) SampleRx :=
  __init__ "echo-service" [("a", 1); ("b", 2); ("a", 1)].

(** A service that was given no endpoint. *)
Definition lonely_service : @BaseService (list Z) SampleRx := __init__ "echo-service" [].

(** And after echo("x") and echo("y"): sessions 1 and 2 are open. *)
Definition echo_open : BaseService :=
  run [OpCall "echo" [VStr "x"] [] None; OpCall "echo" [VStr "y"] [] None] echo_service.

End Sample.

(** * Properties *)

Section Properties.
Context {Tree Rx : Type} {Ext : Externals Tree Rx}.

Implicit Types (s : @BaseService Tree Rx) (cs : list Attempt) (errors : list (Endpoint * string)).

(** ** The endpoint race *)

Lemma race_all_failed cs errors s :
  Forall failed cs →
  race cs errors s =
    (s, Raise (Exception ("unable to establish connection: " +:+ error_msg (collect cs errors)))).
Proof.
  revert errors. induction cs as [|[ep [err|p]] cs IH]; intros errors Hf; simpl.
  - reflexivity.
  - apply IH. by inversion Hf.
  - inversion Hf as [|? ? [err Herr] ?]. discriminate.
Qed.

Lemma elem_of_dict_set_same {K V} `{EqDecision K} (k : K) (v : V) d : (k, v) ∈ dict_set k v d.
Proof.
  induction d as [|[k' v'] d IH]; simpl.
  - apply list_elem_of_here.
  - destruct (decide (k = k')); [apply list_elem_of_here | by apply list_elem_of_further].
Qed.

Lemma elem_of_dict_set_other {K V} `{EqDecision K} (k k' : K) (v v' : V) d :
  k' ≠ k → (k', v') ∈ d → (k', v') ∈ dict_set k v d.
Proof.
  intros Hne. induction d as [|[k1 v1] d IH]; simpl; intros Hin.
  - by apply elem_of_nil in Hin.
  - apply elem_of_cons in Hin as [Heq|Hin].
    + inversion Heq; subst. destruct (decide (k = k1)); [congruence | apply list_elem_of_here].
    + destruct (decide (k = k1)); apply list_elem_of_further; auto.
Qed.

Lemma elem_of_dict_set_inv {K V} `{EqDecision K} (k k' : K) (v v' : V) d :
  (k', v') ∈ dict_set k v d → (k', v') = (k, v) ∨ (k', v') ∈ d.
Proof.
  induction d as [|[k1 v1] d IH]; simpl; intros Hin.
  - apply list_elem_of_singleton in Hin. by left.
  - destruct (decide (k = k1)).
    + apply elem_of_cons in Hin as [Heq|Hin]; [by left | right; by apply list_elem_of_further].
    + apply elem_of_cons in Hin as [Heq|Hin].
      * right. rewrite Heq. apply list_elem_of_here.
      * destruct (IH Hin); [by left | right; by apply list_elem_of_further].
Qed.

Lemma dict_set_keeps_keys {K V} `{EqDecision K} (k k' : K) (v : V) d :
  k' ∈ d.*1 → k' ∈ (dict_set k v d).*1.
Proof.
  induction d as [|[k1 v1] d IH]; simpl; intros Hin.
  - by apply elem_of_nil in Hin.
  - destruct (decide (k = k1)); simpl.
    + subst. exact Hin.
    + apply elem_of_cons in Hin as [->|Hin]; [apply list_elem_of_here|].
      apply list_elem_of_further; auto.
Qed.

Lemma collect_from cs errors ep cause :
  (ep, cause) ∈ collect cs errors → (ep, cause) ∈ errors ∨ (ep, inl cause) ∈ cs.
Proof.
  revert errors. induction cs as [|[ep0 [e0|p0]] cs IH]; intros errors; simpl.
  - by left.
  - intros Hin. destruct (IH _ Hin) as [Hd|Hc].
    + apply elem_of_dict_set_inv in Hd as [Heq|Hd]; [|by left].
      inversion Heq; subst. right. apply list_elem_of_here.
    + right. by apply list_elem_of_further.
  - intros Hin. destruct (IH _ Hin) as [Hd|Hc]; [by left|].
    right. by apply list_elem_of_further.
Qed.

Lemma collect_names cs errors ep :
  Forall failed cs →
  ep ∈ errors.*1 ∨ ep ∈ cs.*1 →
  ∃ cause, (ep, cause) ∈ collect cs errors ∧ ((ep, cause) ∈ errors ∨ (ep, inl cause) ∈ cs).
Proof.
  revert errors. induction cs as [|[ep0 [e0|p0]] cs IH]; intros errors Hf Hin; simpl.
  - destruct Hin as [Hin|Hin]; [|by apply elem_of_nil in Hin].
    apply list_elem_of_fmap in Hin as [[ep' c] [-> Hin]]. exists c. split; [done | by left].
  - inversion Hf as [|? ? _ Hf']; subst.
    destruct (IH (dict_set ep0 e0 errors) Hf') as (c & Hc & Hsrc).
    { destruct Hin as [Hin|Hin].
      - left. by apply dict_set_keeps_keys.
      - simpl in Hin. apply elem_of_cons in Hin as [->|Hin]; [|by right].
        left. apply list_elem_of_fmap. exists (ep0, e0). split; [done|].
        apply elem_of_dict_set_same. }
    exists c. split; [done|]. destruct Hsrc as [Hd|Hcs].
    + apply elem_of_dict_set_inv in Hd as [Heq|Hd]; [|by left].
      inversion Heq; subst. right. apply list_elem_of_here.
    + right. by apply list_elem_of_further.
  - inversion Hf as [|? ? [err Herr] ?]. discriminate.
Qed.

Lemma collect_keeps cs errors ep cause :
  (ep, cause) ∈ errors → ep ∉ cs.*1 → (ep, cause) ∈ collect cs errors.
Proof.
  revert errors. induction cs as [|[ep0 r0] cs IH]; intros errors Hin Hnot; simpl; [done|].
  simpl in Hnot. apply not_elem_of_cons in Hnot as [Hne Hnot].
  apply IH; [|done]. destruct r0; [|done]. by apply elem_of_dict_set_other.
Qed.

Lemma collect_own cs errors ep cause :
  NoDup cs.*1 → (ep, inl cause) ∈ cs → (ep, cause) ∈ collect cs errors.
Proof.
  revert errors. induction cs as [|[ep0 r0] cs IH]; intros errors Hnd Hin; simpl.
  - by apply elem_of_nil in Hin.
  - simpl in Hnd. apply NoDup_cons in Hnd as [Hfresh Hnd].
    apply elem_of_cons in Hin as [Heq|Hin].
    + inversion Heq; subst. simpl. apply collect_keeps; [apply elem_of_dict_set_same | done].
    + by apply IH.
Qed.

Lemma string_app_assoc (a b c : string) : (a +:+ b) +:+ c = a +:+ b +:+ c.
Proof.
  induction a as [|x a IH]; [reflexivity|].
  change (String x ((a +:+ b) +:+ c) = String x (a +:+ b +:+ c)). by rewrite IH.
Qed.

Lemma string_app_nil_r (a : string) : a +:+ "" = a.
Proof.
  induction a as [|x a IH]; [reflexivity|].
  change (String x (a +:+ "") = String x a). by rewrite IH.
Qed.

Lemma occurs_in_app_l sub str pre : occurs_in sub str → occurs_in sub (pre +:+ str).
Proof.
  intros (before & after & ->). exists (pre +:+ before), after. by rewrite string_app_assoc.
Qed.

Lemma occurs_in_app_r sub str post : occurs_in sub str → occurs_in sub (str +:+ post).
Proof.
  intros (before & after & ->). exists before, (after +:+ post).
  by rewrite !string_app_assoc.
Qed.

Lemma occurs_in_join sep x l : x ∈ l → occurs_in x (join sep l).
Proof.
  induction l as [|y l IH]; [by intros ?%elem_of_nil|].
  intros Hin. apply elem_of_cons in Hin as [->|Hin].
  - destruct l as [|z l].
    + exists "", "". change (y = y +:+ ""). by rewrite string_app_nil_r.
    + exists "", (sep +:+ join sep (z :: l)). reflexivity.
  - destruct l as [|z l]; [by apply elem_of_nil in Hin|].
    change (join sep (y :: z :: l)) with (y +:+ sep +:+ join sep (z :: l)).
    apply occurs_in_app_l, occurs_in_app_l. by apply IH.
Qed.

(** The message of the aggregate reads, for each entry of the dictionary
    of errors, the host, a colon, the port in decimal, a space and the
    cause. *)
Lemma error_msg_names errors host port cause :
  ((host, port), cause) ∈ errors →
  occurs_in (host +:+ ":" +:+ pretty port +:+ " " +:+ cause)
    ("unable to establish connection: " +:+ error_msg errors).
Proof.
  intros Hin. apply occurs_in_app_l. unfold error_msg. apply occurs_in_join.
  apply list_elem_of_fmap. by exists ((host, port), cause).
Qed.

(** C5. When every attempt of the race fails, [connect] raises one
    exception whose message is built from a dictionary of errors in which
    every endpoint of the list appears with the cause of a failed attempt
    on that endpoint (its own cause when the endpoints are distinct), and
    nothing but such pairs; the text of the message reads every endpoint
    as host:port followed by its cause; the service is left as it was,
    with no live handle, apart from the attempts having been launched. *)
Theorem connect_all_attempts_fail s cs :
  pipe s = None →
  cs.*1 ≡ₚ endpoints s →
  Forall failed cs →
  ∃ errors,
    connect cs s =
      (emit ((λ ep, Connecting ep.1 ep.2) <$> endpoints s) s,
       Raise (Exception ("unable to establish connection: " +:+ error_msg errors)))
    ∧ pipe (connect cs s).1 = None
    ∧ (∀ ep, ep ∈ endpoints s → ∃ cause, (ep, cause) ∈ errors ∧ (ep, inl cause) ∈ cs)
    ∧ (∀ ep cause, (ep, cause) ∈ errors → (ep, inl cause) ∈ cs)
    ∧ (NoDup (endpoints s) → ∀ ep cause, (ep, inl cause) ∈ cs → (ep, cause) ∈ errors)
    ∧ (∀ host port, (host, port) ∈ endpoints s →
         ∃ cause message,
           ((host, port), inl cause) ∈ cs
           ∧ (connect cs s).2 = Raise (Exception message)
           ∧ occurs_in (host +:+ ":" +:+ pretty port +:+ " " +:+ cause) message).
Proof.
  intros Hpipe Hperm Hf. exists (collect cs []).
  assert (Hc : connect cs s =
      (emit ((λ ep, Connecting ep.1 ep.2) <$> endpoints s) s,
       Raise (Exception ("unable to establish connection: " +:+ error_msg (collect cs []))))).
  { unfold connect, _connected. rewrite Hpipe. by apply race_all_failed. }
  assert (Hnames : ∀ ep, ep ∈ endpoints s →
            ∃ cause, (ep, cause) ∈ collect cs [] ∧ (ep, inl cause) ∈ cs).
  { intros ep Hep. rewrite <- Hperm in Hep.
    destruct (collect_names cs [] ep Hf (or_intror Hep)) as (c & Hc1 & [Hnil|Hcs]).
    + by apply elem_of_nil in Hnil.
    + by exists c. }
  split; [exact Hc|]. split; [by rewrite Hc|]. split; [exact Hnames|]. split; [|split].
  - intros ep c Hin. destruct (collect_from _ _ _ _ Hin) as [Hnil|Hcs]; [|done].
    by apply elem_of_nil in Hnil.
  - intros Hnd ep c Hin. apply collect_own; [|done]. by rewrite Hperm.
  - intros host port Hep. destruct (Hnames _ Hep) as (cause & Hin & Hcs).
    exists cause. eexists. split; [exact Hcs|]. rewrite Hc. split; [reflexivity|].
    by apply error_msg_names.
Qed.

(** ** Teardown *)

Lemma popitem_Some (d : gmap Z Rx) k v d' :
  popitem d = Some (k, v, d') →
  d !! k = Some v ∧ d' = delete k d ∧ map_to_list d ≡ₚ (k, v) :: map_to_list d'.
Proof.
  unfold popitem. destruct (map_to_list d) as [|[k0 v0] l] eqn:Hl; [done|].
  intros [= -> -> <-].
  assert (Hk : d !! k = Some v).
  { apply elem_of_map_to_list. rewrite Hl. apply list_elem_of_here. }
  split; [done|]. split; [done|]. rewrite <- Hl. symmetry. by apply map_to_list_delete.
Qed.

Lemma popitem_None (d : gmap Z Rx) : popitem d = None → d = ∅.
Proof.
  unfold popitem. destruct (map_to_list d) as [|[k0 v0] l] eqn:Hl; [|done].
  intros _. by apply map_to_list_empty_iff.
Qed.

Lemma drain_spec fuel s :
  (size (sessions s) ≤ fuel)%nat →
  ∃ errs,
    drain fuel s = set_sessions ∅ (emit errs s)
    ∧ errs ≡ₚ (λ k, RxError k (DisconnectionError (name s))) <$> (map_to_list (sessions s)).*1.
Proof.
  revert s. induction fuel as [|fuel IH]; intros s Hsize; simpl.
  - exists []. assert (Hempty : sessions s = ∅) by (apply map_size_empty_inv; lia).
    rewrite Hempty, map_to_list_empty. split; [|done].
    destruct s; simpl in *. subst. unfold set_sessions, emit; simpl. by rewrite app_nil_r.
  - destruct (popitem (sessions s)) as [[[k v] d]|] eqn:Hpop.
    + apply popitem_Some in Hpop as (Hk & -> & Hperm).
      destruct (IH (emit [RxError k (DisconnectionError (name s))]
                      (set_sessions (delete k (sessions s)) s))) as (errs & Heq & Herrs).
      { simpl. rewrite map_size_delete, Hk. lia. }
      exists (RxError k (DisconnectionError (name s)) :: errs). split.
      * rewrite Heq. destruct s; unfold set_sessions, emit; simpl.
        by rewrite <- app_assoc.
      * rewrite Hperm. simpl. by rewrite Herrs.
    + apply popitem_None in Hpop. exists []. rewrite Hpop, map_to_list_empty. split; [|done].
      destruct s; simpl in *. subst. unfold set_sessions, emit; simpl. by rewrite app_nil_r.
Qed.

(** What [disconnect] does, by the state of [pipe]. *)
Lemma disconnect_cases s :
  match pipe s with
  | Some p =>
      ∃ errs,
        disconnect s = set_sessions ∅ (set_pipe None (emit (PipeClose p :: errs) s))
        ∧ errs ≡ₚ (λ k, RxError k (DisconnectionError (name s))) <$> (map_to_list (sessions s)).*1
  | None => disconnect s = s
  end.
Proof.
  unfold disconnect. destruct (pipe s) as [p|] eqn:Hp; [|done].
  destruct (drain_spec (size (sessions s)) (set_pipe None (emit [PipeClose p] s)))
    as (errs & Heq & Herrs); [done|].
  simpl in Herrs. exists errs. rewrite Heq. split; [|done].
  destruct s; unfold set_sessions, set_pipe, emit; simpl. by rewrite <- app_assoc.
Qed.

(** C4. With a live handle, [disconnect] closes it, clears [pipe], gives
    one [DisconnectionError] carrying the service name to the receive side
    of each session of the table (as many as the table held, one per
    session id) and leaves the table empty; the rest of the object is
    untouched.  With no live handle it changes nothing. *)
Theorem disconnect_spec s :
  match pipe s with
  | Some p =>
      ∃ errs,
        disconnect s = set_sessions ∅ (set_pipe None (emit (PipeClose p :: errs) s))
        ∧ errs ≡ₚ (λ k, RxError k (DisconnectionError (name s))) <$> (map_to_list (sessions s)).*1
        ∧ NoDup (map_to_list (sessions s)).*1
        ∧ length errs = size (sessions s)
        ∧ pipe (disconnect s) = None
        ∧ sessions (disconnect s) = ∅
  | None => disconnect s = s
  end.
Proof.
  pose proof (disconnect_cases s) as Hd. destruct (pipe s) as [p|]; [|done].
  destruct Hd as (errs & Heq & Herrs). exists errs.
  split_and!; [done|done|apply NoDup_fst_map_to_list| |by rewrite Heq|by rewrite Heq].
  rewrite Herrs, length_fmap, length_fmap. apply length_map_to_list.
Qed.

(** ** Frame routing *)

Lemma pushes_to_app k evs1 evs2 : pushes_to k (evs1 ++ evs2) = pushes_to k evs1 ++ pushes_to k evs2.
Proof. unfold pushes_to. apply omap_app. Qed.

(** The iteration stops because the unpacker has nothing more to give,
    never because the fuel is used up. *)
Lemma unpacker_next_shorter bs v rest :
  unpacker_next bs = Some (v, rest) → (length rest < length bs)%nat.
Proof.
  unfold unpacker_next. destruct (unpack_one bs) as [[v' rest']|]; [|done].
  destruct (decide (length rest' < length bs)%nat); [|done]. by intros [= _ <-].
Qed.

Lemma unpack_all_fuel fuel1 fuel2 bs :
  (length bs ≤ fuel1)%nat → (length bs ≤ fuel2)%nat → unpack_all fuel1 bs = unpack_all fuel2 bs.
Proof.
  revert fuel2 bs. induction fuel1 as [|fuel1 IH]; intros [|fuel2] bs H1 H2; simpl; try done.
  - destruct (unpacker_next bs) as [[v rest]|] eqn:Hn; [|done].
    apply unpacker_next_shorter in Hn. lia.
  - destruct (unpacker_next bs) as [[v rest]|] eqn:Hn; [|done].
    apply unpacker_next_shorter in Hn. lia.
  - destruct (unpacker_next bs) as [[v rest]|] eqn:Hn; [|done].
    f_equal. apply unpacker_next_shorter in Hn. apply IH; lia.
Qed.

Lemma unpack_all_drained fuel bs b :
  (length bs ≤ fuel)%nat →
  last (bs :: (unpack_all fuel bs).*2) = Some b →
  unpacker_next b = None.
Proof.
  revert bs. induction fuel as [|fuel IH]; intros bs Hlen; simpl.
  - intros [= <-]. destruct (unpacker_next bs) as [[v rest]|] eqn:Hn; [|done].
    apply unpacker_next_shorter in Hn. lia.
  - destruct (unpacker_next bs) as [[v rest]|] eqn:Hn; [|by intros [= <-]].
    pose proof (unpacker_next_shorter _ _ _ Hn) as Hlt. simpl.
    intros Hlast. apply (IH rest); [lia|done].
Qed.

(** What one pass of the loop body leaves alone. *)
Lemma route_fields msg s s' r :
  route msg s = (s', r) →
  name s' = name s ∧ endpoints s' = endpoints s ∧ counter s' = counter s ∧ api s' = api s
  ∧ pipe s' = pipe s ∧ address s' = address s ∧ buffer s' = buffer s ∧ issued s' = issued s.
Proof.
  unfold route. intros Hr.
  destruct (slice3 msg ≫= unpack3) as [[[session mt] pl]|]; [|by inversion Hr].
  destruct (py_key session) as [[k|]|]; [|by inversion Hr|by inversion Hr].
  destruct (sessions s !! k); by inversion Hr.
Qed.

(** A frame for an id that is not in the table is dropped: nothing is
    pushed, nothing changes and the loop goes on. *)
Lemma route_unknown_session k message_type payload msg s :
  frame_for k message_type payload msg →
  sessions s !! k = None →
  route msg s = (s, Return ()).
Proof. intros (session & Hm & Hk) Hno. unfold route. by rewrite Hm, Hk, Hno. Qed.

(** A frame for an id of the table is pushed to the receive side found
    there, which leaves the table when it says it is closed. *)
Lemma route_known_session k message_type payload msg s r :
  frame_for k message_type payload msg →
  sessions s !! k = Some r →
  route msg s =
    (set_sessions
       (if Rx_closed (Rx_push message_type payload r) then delete k (sessions s)
        else <[k := Rx_push message_type payload r]> (sessions s))
       (emit [RxPush k message_type payload] s),
     Return ()).
Proof. intros (session & Hm & Hk) Hr. unfold route. by rewrite Hm, Hk, Hr. Qed.

Lemma route_absent k msg s s' r :
  route msg s = (s', r) →
  sessions s !! k = None →
  sessions s' !! k = None ∧ ∃ evs, events s' = events s ++ evs ∧ pushes_to k evs = [].
Proof.
  unfold route. intros Hr Hno.
  assert (Hsame : sessions s !! k = None ∧ ∃ evs, events s = events s ++ evs ∧ pushes_to k evs = []).
  { split; [done|]. exists []. by rewrite app_nil_r. }
  destruct (slice3 msg ≫= unpack3) as [[[session mt] pl]|]; [|by inversion Hr; subst].
  destruct (py_key session) as [[k'|]|]; [|by inversion Hr; subst|by inversion Hr; subst].
  destruct (sessions s !! k') as [r0|] eqn:Hk'; [|by inversion Hr; subst].
  assert (k' ≠ k) by congruence.
  inversion Hr; subst; simpl. split.
  - destruct (Rx_closed _); [by rewrite lookup_delete_ne | by rewrite lookup_insert_ne].
  - exists [RxPush k' mt pl]. split; [done|]. simpl. by destruct (decide (k' = k)).
Qed.

Lemma on_read_loop_fields msgs s :
  let s' := (on_read_loop msgs s).1 in
  name s' = name s ∧ endpoints s' = endpoints s ∧ counter s' = counter s ∧ api s' = api s
  ∧ pipe s' = pipe s ∧ address s' = address s ∧ issued s' = issued s.
Proof.
  revert s. induction msgs as [|[msg rest] msgs IH]; intros s; simpl;
    [by destruct (unpack_error (buffer s))|].
  destruct (route msg (set_buffer rest s)) as [s1 [[]|e]] eqn:Hr;
    apply route_fields in Hr as (?&?&?&?&?&?&?&?); simpl in *.
  - destruct (IH s1) as (?&?&?&?&?&?&?). repeat split; congruence.
  - repeat split; congruence.
Qed.

Lemma on_read_loop_absent k msgs s :
  sessions s !! k = None →
  sessions (on_read_loop msgs s).1 !! k = None
  ∧ ∃ evs, events (on_read_loop msgs s).1 = events s ++ evs ∧ pushes_to k evs = [].
Proof.
  revert s. induction msgs as [|[msg rest] msgs IH]; intros s Hno; simpl.
  - destruct (unpack_error (buffer s)); (split; [done|]); exists []; by rewrite app_nil_r.
  - destruct (route msg (set_buffer rest s)) as [s1 [[]|e]] eqn:Hr;
      apply (route_absent k) in Hr as (Hno1 & evs1 & Hev1 & Hp1); try done; simpl in *.
    + destruct (IH s1 Hno1) as (Hno2 & evs2 & Hev2 & Hp2). split; [done|].
      exists (evs1 ++ evs2). rewrite Hev2, Hev1, <- app_assoc. split; [done|].
      by rewrite pushes_to_app, Hp1, Hp2.
    + split; [done|]. by exists evs1.
Qed.

Lemma on_read_absent k read_bytes s :
  sessions s !! k = None →
  sessions (on_read read_bytes s).1 !! k = None
  ∧ ∃ evs, events (on_read read_bytes s).1 = events s ++ evs ∧ pushes_to k evs = [].
Proof.
  intros Hno. unfold on_read.
  exact (on_read_loop_absent k _ (set_buffer (buffer s ++ read_bytes) s) Hno).
Qed.

Lemma route_cases msg s s' r :
  route msg s = (s', r) →
  (s' = s)
  ∨ (∃ k message_type payload r0,
       frame_for k message_type payload msg ∧ sessions s !! k = Some r0
       ∧ r = Return ()
       ∧ s' = set_sessions
                (if Rx_closed (Rx_push message_type payload r0) then delete k (sessions s)
                 else <[k := Rx_push message_type payload r0]> (sessions s))
                (emit [RxPush k message_type payload] s)).
Proof.
  unfold route. intros Hr.
  destruct (slice3 msg ≫= unpack3) as [[[session mt] pl]|] eqn:Hm; [|left; congruence].
  destruct (py_key session) as [[k|]|] eqn:Hk; [|left; congruence|left; congruence].
  destruct (sessions s !! k) as [r0|] eqn:Hs; [|left; congruence].
  right. exists k, mt, pl, r0. inversion Hr; subst. split_and!; try done. by exists session.
Qed.

(** When the session field of every frame can be hashed, the loop runs to
    the end of the iteration, which decides the result. *)
Lemma on_read_loop_returns msgs s :
  Forall hashable_session msgs.*1 →
  (on_read_loop msgs s).2 =
    match unpack_error (buffer (on_read_loop msgs s).1) with
    | Some e => Raise (UnpackError e)
    | None => Return ()
    end.
Proof.
  revert s. induction msgs as [|[msg rest] msgs IH]; intros s Hall; simpl.
  { destruct (unpack_error (buffer s)) eqn:He; simpl; by rewrite He. }
  inversion Hall as [|? ? Hmsg Hrest]; subst.
  assert (Hret : (route msg (set_buffer rest s)).2 = Return ()).
  { unfold route.
    destruct (slice3 msg ≫= unpack3) as [[[session mt] pl]|] eqn:Hm; [|done].
    destruct (Hmsg _ _ _ Hm) as [[k|] ->]; [|done].
    simpl. by destruct (sessions s !! k). }
  destruct (route msg (set_buffer rest s)) as [s1 r]. simpl in Hret. subst r.
  by apply IH.
Qed.

(** The pushes of one call are made in the order of the frames: they
    are, one for one, frames of the chunk taken in order. *)
Lemma on_read_loop_in_order msgs s :
  ∃ evs sub,
    events (on_read_loop msgs s).1 = events s ++ evs
    ∧ sublist sub msgs.*1
    ∧ Forall2 (λ e msg, ∃ k message_type payload,
                 e = RxPush k message_type payload ∧ frame_for k message_type payload msg)
        evs sub.
Proof.
  revert s. induction msgs as [|[msg rest] msgs IH]; intros s; simpl.
  - exists [], []. rewrite app_nil_r.
    destruct (unpack_error (buffer s)); (split_and!; [done|constructor|constructor]).
  - destruct (route msg (set_buffer rest s)) as [s1 r] eqn:Hr.
    destruct (route_cases _ _ _ _ Hr) as [->|(k & mt & pl & r0 & Hmsg & Hs & -> & ->)].
    + destruct r as [[]|e].
      * destruct (IH (set_buffer rest s)) as (evs & sub & Hev & Hsub & Hall).
        exists evs, sub. split_and!; [done|by constructor|done].
      * exists [], []. simpl. rewrite app_nil_r. split_and!; [done|apply sublist_nil_l|constructor].
    + destruct (IH (set_sessions
                      (if Rx_closed (Rx_push mt pl r0) then delete k (sessions (set_buffer rest s))
                       else <[k := Rx_push mt pl r0]> (sessions (set_buffer rest s)))
                      (emit [RxPush k mt pl] (set_buffer rest s))))
        as (evs & sub & Hev & Hsub & Hall).
      exists (RxPush k mt pl :: evs), (msg :: sub). split_and!.
      * rewrite Hev. simpl. by rewrite <- app_assoc.
      * by constructor.
      * constructor; [by exists k, mt, pl|done].
Qed.

(** The same at the first frame of a chunk, through [on_read] itself. *)
Lemma on_read_closing_first_frame s read_bytes msg rest k message_type payload r :
  frames (buffer s ++ read_bytes) = msg :: rest →
  frame_for k message_type payload msg →
  sessions s !! k = Some r →
  Rx_closed (Rx_push message_type payload r) = true →
  let s' := (on_read read_bytes s).1 in
  (∃ evs, events s' = events s ++ RxPush k message_type payload :: evs ∧ pushes_to k evs = [])
  ∧ sessions s' !! k = None.
Proof.
  intros Hframes Hmsg Hr Hclosed s'.
  assert (Hloop : ∃ b tl, s' = (on_read_loop tl
            (set_sessions (delete k (sessions s))
               (emit [RxPush k message_type payload]
                  (set_buffer b (set_buffer (buffer s ++ read_bytes) s))))).1).
  { subst s'. unfold on_read, frames in *.
    destruct (unpack_all _ _) as [|[m b] tl]; [done|]. simpl in Hframes.
    injection Hframes as -> _. exists b, tl. cbn [on_read_loop].
    rewrite (route_known_session k message_type payload msg
               (set_buffer b (set_buffer (buffer s ++ read_bytes) s)) r Hmsg Hr).
    by rewrite Hclosed. }
  destruct Hloop as (b & tl & Hs').
  assert (Habs := on_read_loop_absent k tl
            (set_sessions (delete k (sessions s))
               (emit [RxPush k message_type payload]
                  (set_buffer b (set_buffer (buffer s ++ read_bytes) s))))).
  rewrite <- Hs' in Habs. simpl in Habs.
  destruct Habs as (Hno & evs & Hev & Hp); [apply lookup_delete_eq|].
  split; [|done]. exists evs. split; [|done]. rewrite Hev. by rewrite <- app_assoc.
Qed.

(** ** What connect and the dispatch leave alone *)

Lemma race_fields cs errors s :
  let s' := (race cs errors s).1 in
  name s' = name s ∧ endpoints s' = endpoints s ∧ sessions s' = sessions s
  ∧ counter s' = counter s ∧ api s' = api s ∧ buffer s' = buffer s ∧ issued s' = issued s.
Proof.
  revert errors. induction cs as [|[ep [err|p]] cs IH]; intros errors; simpl; [done|apply IH|done].
Qed.

Lemma race_result cs errors s :
  match (race cs errors s).2 with
  | Return _ => is_Some (pipe (race cs errors s).1)
  | Raise _ => (race cs errors s).1 = s
  end.
Proof.
  revert errors. induction cs as [|[ep [err|p]] cs IH]; intros errors; simpl; [done|apply IH|eauto].
Qed.

Lemma cancellation_events rest : Forall (λ e, connection_event e = true) (cancellation rest).
Proof.
  induction rest as [|[ep [err|p]] rest IH]; simpl; [constructor|done|by constructor].
Qed.

Lemma race_events cs errors s :
  ∃ evs, events (race cs errors s).1 = events s ++ evs
         ∧ Forall (λ e, connection_event e = true) evs.
Proof.
  revert errors. induction cs as [|[ep [err|p]] cs IH]; intros errors; simpl.
  - exists []. by rewrite app_nil_r.
  - apply IH.
  - eexists. split; [done|]. repeat constructor. apply cancellation_events.
Qed.

Lemma connect_connected cs s p : pipe s = Some p → connect cs s = (s, Return ()).
Proof. intros Hp. unfold connect, _connected. by rewrite Hp. Qed.

Lemma connect_fields cs s :
  let s' := (connect cs s).1 in
  name s' = name s ∧ endpoints s' = endpoints s ∧ sessions s' = sessions s
  ∧ counter s' = counter s ∧ api s' = api s ∧ buffer s' = buffer s ∧ issued s' = issued s.
Proof.
  unfold connect. destruct (_connected s); simpl; [done|].
  apply (race_fields cs [] (emit _ s)).
Qed.

Lemma connect_result cs s :
  match (connect cs s).2 with
  | Return _ => is_Some (pipe (connect cs s).1)
  | Raise _ => pipe (connect cs s).1 = None ∧ pipe s = None
  end.
Proof.
  unfold connect, _connected. destruct (pipe s) as [p|] eqn:Hp; simpl; [by rewrite Hp; eauto|].
  pose proof (race_result cs [] (emit ((λ ep, Connecting ep.1 ep.2) <$> endpoints s) s)) as Hr.
  destruct (race _ _ _) as [s' [[]|e]]; simpl in *; [done|]. by subst.
Qed.

Lemma connect_events cs s :
  ∃ evs, events (connect cs s).1 = events s ++ evs
         ∧ Forall (λ e, connection_event e = true) evs.
Proof.
  unfold connect. destruct (_connected s); simpl.
  - exists []. by rewrite app_nil_r.
  - destruct (race_events cs [] (emit ((λ ep, Connecting ep.1 ep.2) <$> endpoints s) s))
      as (evs & Hev & Hall).
    exists (((λ ep, Connecting ep.1 ep.2) <$> endpoints s) ++ evs).
    split; [by rewrite Hev; simpl; rewrite <- app_assoc|].
    apply Forall_app. split; [|done]. apply Forall_fmap. by apply Forall_true.
Qed.

Lemma connect_no_write cs s :
  ∃ evs, events (connect cs s).1 = events s ++ evs ∧ ∀ p data, PipeWrite p data ∉ evs.
Proof.
  destruct (connect_events cs s) as (evs & Hev & Hall). exists evs. split; [done|].
  intros p data Hin. rewrite Forall_forall in Hall. by specialize (Hall _ Hin).
Qed.

(** The dispatch of a name that the API does not have: the result of
    [connect], then the error naming the method. *)
Lemma invoke_start_unknown method_name args cs s :
  find_method method_name (api s) = None →
  invoke_start method_name args cs s =
    ((connect cs s).1,
     Finished (match (connect cs s).2 with
               | Return _ => Raise (AttributeError method_name)
               | Raise e => Raise e
               end)).
Proof.
  intros Hfind. unfold invoke_start.
  destruct (connect_fields cs s) as (_&_&_&_&Hapi&_).
  destruct (connect cs s) as [s1 [[]|e]]; simpl in *; [|done]. by rewrite Hapi, Hfind.
Qed.

(** The dispatch of a name of the API on a connected service, up to the
    write. *)
Lemma invoke_start_known method_name args cs s p method_id tx_tree rx_tree :
  pipe s = Some p →
  find_method method_name (api s) = Some (method_id, tx_tree, rx_tree) →
  invoke_start method_name args cs s =
    (emit [PipeWrite p (msgpack_packb (VList [VInt (counter s); VInt method_id; VList args]))]
       (next_counter s).2,
     Writing (mkPending (counter s) tx_tree rx_tree)).
Proof.
  intros Hp Hfind. unfold invoke_start. rewrite (connect_connected cs s p Hp), Hfind. simpl.
  by rewrite Hp.
Qed.

Lemma invoke_start_spec method_name args cs s s1 pr :
  invoke_start method_name args cs s = (s1, pr) →
  sessions s1 = sessions s
  ∧ api s1 = api s
  ∧ name s1 = name s
  ∧ counter_step s s1
  ∧ (table_needs_pipe s → table_needs_pipe s1)
  ∧ match pr with
    | Writing k =>
        is_Some (pipe s1) ∧ pending_counter k = counter s
        ∧ counter s1 = counter s + 1 ∧ issued s1 = issued s ++ [counter s]
        ∧ ∃ method_id,
            find_method method_name (api s) = Some (method_id, pending_tx_tree k, pending_rx_tree k)
    | Finished (Return _) => False
    | Finished (Raise _) => True
    end.
Proof.
  unfold invoke_start, counter_step, table_needs_pipe.
  destruct (connect_fields cs s) as (Hname&_&Hsess&Hcnt&Hapi&_&Hiss).
  pose proof (connect_result cs s) as Hres.
  destruct (connect cs s) as [s0 [[]|e]]; simpl in *.
  - rewrite Hapi. destruct (find_method method_name (api s)) as [[[mid tx_tree] rx_tree]|] eqn:Hfind.
    + simpl. destruct (pipe s0) as [p|] eqn:Hp; [|by destruct Hres].
      intros [= <- <-]; simpl. rewrite Hcnt, Hiss. split_and!; eauto.
    + intros [= <- <-]. rewrite Hcnt, Hiss. split_and!; auto.
  - intros [= <- <-]. rewrite Hcnt, Hiss.
    destruct Hres as [Hp1 Hp0]. split_and!; auto.
    intros Hinv Hne. rewrite Hsess in Hne. destruct (Hinv Hne) as [? ?]. congruence.
Qed.

Lemma invoke_spec method_name args cs written s s' r :
  _invoke method_name args cs written s = (s', r) →
  counter_step s s'
  ∧ api s' = api s
  ∧ (table_needs_pipe s → table_needs_pipe s')
  ∧ match r with
    | Return ch =>
        written = None
        ∧ tx_session (tx ch) = counter s
        ∧ counter s' = counter s + 1
        ∧ issued s' = issued s ++ [counter s]
        ∧ sessions s' = <[counter s := rx ch]> (sessions s)
        ∧ ∃ method_id rx_tree,
            find_method method_name (api s) = Some (method_id, tx_tree (tx ch), rx_tree)
            ∧ rx ch = Rx_new rx_tree (name s)
    | Raise _ => sessions s' = sessions s
    end.
Proof.
  unfold _invoke. destruct (invoke_start method_name args cs s) as [s1 pr] eqn:Hstart.
  apply invoke_start_spec in Hstart as (Hsess & Hapi & Hname & Hstep & Hinv & Hpr).
  destruct pr as [[ch|e]|k]; [done| |].
  - intros [= <- <-]. done.
  - destruct Hpr as (Hp & Hk & Hcnt & Hiss & mid & Hfind).
    unfold invoke_finish. destruct written as [err|].
    + intros [= <- <-]. done.
    + intros [= <- <-]; simpl. rewrite Hk, Hsess, Hname. split_and!; eauto.
      unfold table_needs_pipe. simpl. auto.
Qed.

(** ** Runs *)

Lemma on_read_fields read_bytes s :
  let s' := (on_read read_bytes s).1 in
  name s' = name s ∧ endpoints s' = endpoints s ∧ counter s' = counter s ∧ api s' = api s
  ∧ pipe s' = pipe s ∧ address s' = address s ∧ issued s' = issued s.
Proof. unfold on_read. apply (on_read_loop_fields _ (set_buffer _ s)). Qed.

Lemma on_read_empty_table read_bytes s : sessions s = ∅ → sessions (on_read read_bytes s).1 = ∅.
Proof.
  intros Hempty. apply map_empty. intros k. apply on_read_absent. by rewrite Hempty.
Qed.

Lemma drain_fields fuel s :
  counter (drain fuel s) = counter s ∧ issued (drain fuel s) = issued s
  ∧ pipe (drain fuel s) = pipe s ∧ api (drain fuel s) = api s.
Proof.
  revert s. induction fuel as [|fuel IH]; intros s; simpl; [done|].
  destruct (popitem (sessions s)) as [[[k v] d]|]; [|done].
  destruct (IH (emit [RxError k (DisconnectionError (name s))] (set_sessions d s))) as (?&?&?&?).
  done.
Qed.

Lemma disconnect_fields s :
  counter (disconnect s) = counter s ∧ issued (disconnect s) = issued s
  ∧ api (disconnect s) = api s.
Proof.
  unfold disconnect. destruct (pipe s) as [p|]; [|done].
  destruct (drain_fields (size (sessions s)) (set_pipe None (emit [PipeClose p] s))) as (?&?&?&?).
  done.
Qed.

Lemma disconnect_drains s : table_needs_pipe s → sessions (disconnect s) = ∅ ∧ pipe (disconnect s) = None.
Proof.
  intros Hinv. pose proof (disconnect_cases s) as Hd. destruct (pipe s) as [p|] eqn:Hp.
  - destruct Hd as (errs & -> & _). done.
  - rewrite Hd. split; [|done]. destruct (decide (sessions s = ∅)) as [|Hne]; [done|].
    destruct (Hinv Hne) as [? ?]. congruence.
Qed.

Lemma run_op_counter_step s op : counter_step s (run_op s op).
Proof.
  destruct op as [a|cs| | |bs|m args cs w]; simpl.
  - by left.
  - destruct (connect_fields cs s) as (_&_&_&?&_&_&?). by left.
  - destruct (disconnect_fields s) as (?&?&_). by left.
  - destruct (disconnect_fields s) as (?&?&_). by left.
  - destruct (on_read_fields bs s) as (_&_&?&_&_&_&?). by left.
  - unfold __getattr__. destruct (_invoke m args cs w s) as [s' r] eqn:Hi.
    by apply invoke_spec in Hi as (? & _).
Qed.

Lemma run_op_table_needs_pipe s op : table_needs_pipe s → table_needs_pipe (run_op s op).
Proof.
  intros Hinv. destruct op as [a|cs| | |bs|m args cs w]; simpl.
  - exact Hinv.
  - destruct (connect_fields cs s) as (_&_&Hsess&_). pose proof (connect_result cs s) as Hres.
    unfold table_needs_pipe. rewrite Hsess. intros Hne.
    destruct ((connect cs s).2); [done|]. destruct Hres as [_ Hnone].
    destruct (Hinv Hne) as [? ?]. congruence.
  - destruct (disconnect_drains s Hinv) as [Hempty _]. by intros Hne.
  - destruct (disconnect_drains s Hinv) as [Hempty _]. by intros Hne.
  - destruct (on_read_fields bs s) as (_&_&_&_&Hpipe&_). unfold table_needs_pipe.
    rewrite Hpipe. intros Hne. apply Hinv. intros Hempty. apply Hne.
    by apply on_read_empty_table.
  - unfold __getattr__. destruct (_invoke m args cs w s) as [s' r] eqn:Hi.
    apply invoke_spec in Hi as (_ & _ & Hpres & _). by apply Hpres.
Qed.

Lemma run_snoc ops op s : run (ops ++ [op]) s = run_op (run ops s) op.
Proof. unfold run. by rewrite foldl_app. Qed.

Lemma reachable_ind' (P : BaseService → Prop) :
  (∀ name endpoints, P (__init__ name endpoints)) →
  (∀ s op, reachable s → P s → P (run_op s op)) →
  ∀ s, reachable s → P s.
Proof.
  intros Hinit Hstep s (n & eps & ops & ->).
  induction ops as [|op ops IH] using rev_ind; [apply Hinit|].
  rewrite run_snoc. apply Hstep; [by exists n, eps, ops | exact IH].
Qed.

(** C6, as the code has it.  With every operation run to its end before
    the next one starts, the table holds sessions only while [pipe] is set:
    this holds in every state a service can reach, each operation (setting
    the API, [connect], [disconnect], [on_close], [on_read], a dispatch)
    keeps it so, and [disconnect] ends with the table empty and [pipe]
    cleared.  A dispatch that waited for its write keeps it too when the
    handle is still live or the write has failed; when the handle has been
    torn down in the meantime and the write is reported done, it registers
    its session in a table that has no connection. *)
Theorem sessions_only_while_connected :
  (∀ s, reachable s → table_needs_pipe s)
  ∧ (∀ s op, table_needs_pipe s → table_needs_pipe (run_op s op))
  ∧ (∀ s, table_needs_pipe s → sessions (disconnect s) = ∅ ∧ pipe (disconnect s) = None)
  ∧ (∀ s k written,
       is_Some (pipe s) ∨ is_Some written →
       table_needs_pipe s → table_needs_pipe (invoke_finish k written s).1)
  ∧ (∀ s k, pipe s = None → ¬ table_needs_pipe (invoke_finish k None s).1).
Proof.
  split_and!.
  - apply reachable_ind'.
    + intros n eps Hne. done.
    + intros s op _. apply run_op_table_needs_pipe.
  - apply run_op_table_needs_pipe.
  - apply disconnect_drains.
  - intros s k [err|] Hor Hinv; simpl; [done|].
    destruct Hor as [Hp|[? ?]]; [|done]. by intros _.
  - intros s k Hp Hinv. simpl in Hinv. unfold table_needs_pipe in Hinv. simpl in Hinv.
    rewrite Hp in Hinv. destruct Hinv as [? ?]; [|done]. apply insert_non_empty.
Qed.

(** ** Session ids *)

Lemma run_issued ops s : ∃ new, issued (run ops s) = issued s ++ new.
Proof.
  induction ops as [|op ops IH] using rev_ind.
  - exists []. by rewrite app_nil_r.
  - rewrite run_snoc. destruct IH as (new & Hnew).
    destruct (run_op_counter_step (run ops s) op) as [[_ Hi]|[_ Hi]]; rewrite Hi, Hnew.
    + by exists new.
    + exists (new ++ [counter (run ops s)]). by rewrite app_assoc.
Qed.

Lemma reachable_issued s : reachable s → issued s = seqZ 1 (counter s - 1) ∧ 1 ≤ counter s.
Proof.
  revert s. apply reachable_ind'.
  - intros n eps. done.
  - intros s op _ [Hiss Hle]. destruct (run_op_counter_step s op) as [[Hc Hi]|[Hc Hi]];
      rewrite Hc, Hi; [done|]. split; [|lia].
    replace (counter s + 1 - 1) with ((counter s - 1) + 1) by lia.
    rewrite seqZ_app by lia. rewrite Hiss. f_equal.
    replace (1 + (counter s - 1)) with (counter s) by lia. done.
Qed.

Lemma run_op_keeps_counter s op :
  is_call op = false →
  counter (run_op s op) = counter s ∧ issued (run_op s op) = issued s.
Proof.
  destruct op as [a|cs| | |bs|m args cs w]; simpl; intros Hc; try done.
  - by destruct (connect_fields cs s) as (_&_&_&?&_&_&?).
  - by destruct (disconnect_fields s) as (?&?&_).
  - by destruct (disconnect_fields s) as (?&?&_).
  - by destruct (on_read_fields bs s) as (_&_&?&_&_&_&?).
Qed.

Lemma run_keeps_counter ops s :
  Forall (λ op, is_call op = false) ops →
  counter (run ops s) = counter s ∧ issued (run ops s) = issued s.
Proof.
  intros Hall. induction ops as [|op ops IH] using rev_ind; [done|].
  apply Forall_app in Hall as [Hops Hop]. rewrite run_snoc.
  destruct (run_op_keeps_counter (run ops s) op) as [-> ->]; [by inversion Hop|].
  by apply IH.
Qed.

(** C7. The counter starts at 1.  In every state a service can reach,
    the ids given out so far are 1, 2, ..., counter - 1 in this order, so
    each is greater than all the earlier ones and none occurs twice; no
    operation (a disconnect and a new connect included) takes an id back
    or resets the counter, whether a dispatch runs in one go or waits for
    its write; and a dispatch that returns a handle has registered it
    under the id the counter gave out. *)
Theorem session_ids_never_reused :
  (∀ name endpoints,
     counter (@__init__ Tree Rx name endpoints) = 1
     ∧ issued (@__init__ Tree Rx name endpoints) = [])
  ∧ (∀ s, reachable s → issued s = seqZ 1 (counter s - 1) ∧ 1 ≤ counter s)
  ∧ (∀ s i j a b, reachable s → (i < j)%nat →
       issued s !! i = Some a → issued s !! j = Some b → a < b)
  ∧ (∀ s, reachable s → NoDup (issued s))
  ∧ (∀ s op, counter_step s (run_op s op))
  ∧ (∀ s ops, ∃ new, issued (run ops s) = issued s ++ new)
  ∧ (∀ s method_name args cs s1 pr,
       invoke_start method_name args cs s = (s1, pr) → counter_step s s1)
  ∧ (∀ s k written,
       counter (invoke_finish k written s).1 = counter s
       ∧ issued (invoke_finish k written s).1 = issued s)
  ∧ (∀ s method_name args cs written s' ch,
       __getattr__ method_name args cs written s = (s', Return ch) →
       tx_session (tx ch) = counter s
       ∧ issued s' = issued s ++ [counter s]
       ∧ sessions s' !! counter s = Some (rx ch)).
Proof.
  split_and!.
  - done.
  - apply reachable_issued.
  - intros s i j a b Hreach Hlt Hi Hj. destruct (reachable_issued s Hreach) as [Hiss _].
    rewrite Hiss in Hi, Hj. apply lookup_seqZ in Hi as [-> _]. apply lookup_seqZ in Hj as [-> _].
    lia.
  - intros s Hreach. destruct (reachable_issued s Hreach) as [-> _]. apply NoDup_seqZ.
  - apply run_op_counter_step.
  - intros s ops. apply run_issued.
  - intros s m args cs s1 pr Hstart. by apply invoke_start_spec in Hstart as (_&_&_&?&_).
  - intros s k [err|]; done.
  - intros s m args cs w s' ch Hi. unfold __getattr__ in Hi.
    apply invoke_spec in Hi as (_ & _ & _ & _ & Htx & _ & Hiss & Hsess & _).
    split_and!; [done|done|]. rewrite Hsess. apply lookup_insert_eq.
Qed.

Lemma reachable_ids_below_counter s : reachable s → ids_below_counter s.
Proof.
  revert s. apply reachable_ind'.
  - intros n eps k _. done.
  - intros s op _ Hinv k Hk. destruct op as [a|cs| | |bs|m args cs w]; simpl in *.
    + by apply Hinv.
    + destruct (connect_fields cs s) as (_&_&Hs&Hc&_). rewrite Hs. apply Hinv. by rewrite <- Hc.
    + destruct (disconnect_fields s) as (Hc&_). rewrite Hc in Hk.
      pose proof (disconnect_cases s) as Hd. destruct (pipe s).
      * destruct Hd as (?&->&_). done.
      * rewrite Hd. by apply Hinv.
    + unfold on_close in *. destruct (disconnect_fields s) as (Hc&_). rewrite Hc in Hk.
      pose proof (disconnect_cases s) as Hd. destruct (pipe s).
      * destruct Hd as (?&->&_). done.
      * rewrite Hd. by apply Hinv.
    + destruct (on_read_fields bs s) as (_&_&Hc&_). rewrite Hc in Hk.
      apply on_read_absent. by apply Hinv.
    + unfold __getattr__ in *. destruct (_invoke m args cs w s) as [s' r] eqn:Hi. simpl in *.
      apply invoke_spec in Hi as (Hstep & _ & _ & Hr).
      destruct r as [ch|e].
      * destruct Hr as (_ & _ & Hc & _ & Hs & _). rewrite Hs, Hc in *.
        rewrite lookup_insert_ne by lia. apply Hinv. lia.
      * rewrite Hr. apply Hinv. destruct Hstep as [[Hc _]|[Hc _]]; lia.
Qed.

(** ** An id that has left the table *)

Lemma pushes_to_no_push k evs : Forall (λ e, is_push e = false) evs → pushes_to k evs = [].
Proof.
  induction 1 as [|e evs He _ IH]; [done|]. simpl. rewrite IH. by destruct e.
Qed.

Lemma connection_no_push evs :
  Forall (λ e, connection_event e = true) evs → Forall (λ e, is_push e = false) evs.
Proof. intros Hall. eapply Forall_impl; [exact Hall|]. by intros []. Qed.

Lemma disconnect_events s :
  ∃ evs, events (disconnect s) = events s ++ evs ∧ Forall (λ e, is_push e = false) evs.
Proof.
  pose proof (disconnect_cases s) as Hd. destruct (pipe s) as [p|].
  - destruct Hd as (errs & -> & Herrs). exists (PipeClose p :: errs). split; [done|].
    constructor; [done|]. rewrite Herrs. apply Forall_fmap. by apply Forall_true.
  - rewrite Hd. exists []. by rewrite app_nil_r.
Qed.

Lemma invoke_events method_name args cs written s :
  ∃ evs, events (_invoke method_name args cs written s).1 = events s ++ evs
         ∧ Forall (λ e, is_push e = false) evs.
Proof.
  destruct (connect_events cs s) as (evs & Hev & Hall). apply connection_no_push in Hall.
  unfold _invoke, invoke_start. destruct (connect cs s) as [s0 [[]|e]]; simpl in *.
  - destruct (find_method method_name (api s0)) as [[[mid tx_tree] rx_tree]|]; simpl.
    + destruct (pipe s0) as [p|]; simpl.
      * exists (evs ++ [PipeWrite p
                  (msgpack_packb (VList [VInt (counter s0); VInt mid; VList args]))]).
        split.
        -- unfold invoke_finish. destruct written; simpl; by rewrite Hev, <- app_assoc.
        -- apply Forall_app. split; [done|]. by repeat constructor.
      * by exists evs.
    + by exists evs.
  - by exists evs.
Qed.

Lemma run_op_absent k s op :
  sessions s !! k = None → k < counter s →
  sessions (run_op s op) !! k = None
  ∧ k < counter (run_op s op)
  ∧ ∃ evs, events (run_op s op) = events s ++ evs ∧ pushes_to k evs = [].
Proof.
  intros Hno Hlt.
  assert (Hcnt : k < counter (run_op s op)).
  { destruct (run_op_counter_step s op) as [[Hc _]|[Hc _]]; lia. }
  split_and!; [|done|]; destruct op as [a|cs| | |bs|m args cs w]; simpl.
  - done.
  - by destruct (connect_fields cs s) as (_&_&->&_).
  - pose proof (disconnect_cases s) as Hd. destruct (pipe s).
    + by destruct Hd as (?&->&_).
    + by rewrite Hd.
  - pose proof (disconnect_cases s) as Hd. unfold on_close. destruct (pipe s).
    + by destruct Hd as (?&->&_).
    + by rewrite Hd.
  - by apply on_read_absent.
  - unfold __getattr__. destruct (_invoke m args cs w s) as [s' r] eqn:Hi.
    apply invoke_spec in Hi as (_ & _ & _ & Hr). destruct r as [ch|e]; simpl.
    + destruct Hr as (_ & _ & _ & _ & -> & _). rewrite lookup_insert_ne; [done|lia].
    + by rewrite Hr.
  - exists []. by rewrite app_nil_r.
  - destruct (connect_events cs s) as (evs & Hev & Hall). exists evs. split; [done|].
    by apply pushes_to_no_push, connection_no_push.
  - destruct (disconnect_events s) as (evs & Hev & Hall). exists evs. split; [done|].
    by apply pushes_to_no_push.
  - destruct (disconnect_events s) as (evs & Hev & Hall). exists evs. split; [done|].
    by apply pushes_to_no_push.
  - by apply on_read_absent.
  - destruct (invoke_events m args cs w s) as (evs & Hev & Hall). exists evs. split; [done|].
    by apply pushes_to_no_push.
Qed.

Lemma run_absent k ops s :
  sessions s !! k = None → k < counter s →
  sessions (run ops s) !! k = None
  ∧ k < counter (run ops s)
  ∧ ∃ evs, events (run ops s) = events s ++ evs ∧ pushes_to k evs = [].
Proof.
  intros Hno Hlt. induction ops as [|op ops IH] using rev_ind.
  - split_and!; [done|done|]. exists []. by rewrite app_nil_r.
  - rewrite run_snoc. destruct IH as (Hno1 & Hlt1 & evs1 & Hev1 & Hp1).
    destruct (run_op_absent k (run ops s) op Hno1 Hlt1) as (Hno2 & Hlt2 & evs2 & Hev2 & Hp2).
    split_and!; [done|done|]. exists (evs1 ++ evs2).
    rewrite Hev2, Hev1, <- app_assoc. split; [done|]. by rewrite pushes_to_app, Hp1, Hp2.
Qed.

(** C8. Whenever [on_read] handles a frame for a session of the table
    and the receive side says it is closed after the push, the loop goes on
    with the session removed from the table.  From then on a frame
    carrying that id finds no session and is dropped: through the rest of
    the chunk and through whatever the service does afterwards (further
    chunks, dispatches, teardown and new connections), the id stays out of
    the table and its receive side is pushed nothing more. *)
Theorem closed_session_is_forgotten s msg k message_type payload r :
  ids_below_counter s →
  frame_for k message_type payload msg →
  sessions s !! k = Some r →
  Rx_closed (Rx_push message_type payload r) = true →
  let s1 := set_sessions (delete k (sessions s)) (emit [RxPush k message_type payload] s) in
  route msg s = (s1, Return ())
  ∧ sessions s1 !! k = None
  ∧ (∀ message_type' payload' msg' s2,
       frame_for k message_type' payload' msg' → sessions s2 !! k = None →
       route msg' s2 = (s2, Return ()))
  ∧ (∀ msgs ops,
       let s2 := run ops (on_read_loop msgs s1).1 in
       sessions s2 !! k = None
       ∧ ∃ evs, events s2 = events s1 ++ evs ∧ pushes_to k evs = []).
Proof.
  intros Hids Hmsg Hr Hclosed s1.
  assert (Hno : sessions s1 !! k = None) by apply lookup_delete_eq.
  assert (Hlt : k < counter s).
  { destruct (decide (k < counter s)) as [|Hge]; [done|].
    rewrite Hids in Hr by lia. done. }
  split_and!; [|done| |].
  - rewrite (route_known_session k message_type payload msg s r Hmsg Hr). by rewrite Hclosed.
  - intros mt' pl' msg' s2 Hmsg' Hno2. by eapply route_unknown_session.
  - intros msgs ops s2.
    destruct (on_read_loop_absent k msgs s1 Hno) as (Hno2 & evs2 & Hev2 & Hp2).
    destruct (on_read_loop_fields msgs s1) as (_&_&Hc&_).
    destruct (run_absent k ops (on_read_loop msgs s1).1 Hno2) as (Hno3 & _ & evs3 & Hev3 & Hp3).
    { rewrite Hc. done. }
    split; [done|]. exists (evs2 ++ evs3). subst s2.
    rewrite Hev3, Hev2, <- app_assoc. split; [done|]. by rewrite pushes_to_app, Hp2, Hp3.
Qed.

(** ** Dispatch *)

(** C9. On a connected service whose API has echo under id 1 with trees
    shapeA (send) and shapeB (receive) and whose counter is at 1, the call
    echo("x") whose write succeeds writes the packed frame [1, 1, ["x"]] to
    the live handle and nothing else, registers under id 1 the receive side
    built from shapeB, and returns that receive side paired with a send
    side bound to shapeA, the handle and id 1. *)
Theorem echo_scenario s p shapeA shapeB cs :
  api s = [(1, ("echo", shapeA, shapeB))] →
  pipe s = Some p →
  counter s = 1 →
  let r := Rx_new shapeB (name s) in
  ∃ s',
    __getattr__ "echo" [VStr "x"] cs None s = (s', Return (mkChannel r (mkTx shapeA (Some p) 1)))
    ∧ events s' =
        events s ++ [PipeWrite p (msgpack_packb (VList [VInt 1; VInt 1; VList [VStr "x"]]))]
    ∧ sessions s' = <[1 := r]> (sessions s)
    ∧ pipe s' = Some p
    ∧ counter s' = 2.
Proof.
  intros Hapi Hp Hc r. unfold __getattr__, _invoke.
  rewrite (invoke_start_known "echo" [VStr "x"] cs s p 1 shapeA shapeB Hp)
    by (rewrite Hapi; reflexivity).
  unfold invoke_finish, r. destruct s; simpl in *; subst. eexists. split_and!; reflexivity.
Qed.

(** C10. A dispatch of a name that the API does not have ends in an
    exception (the unknown-method error once [connect] has returned) and
    leaves the table, the counter and the ids given out as they were.  The
    next dispatch that returns a handle, whatever operations other than
    dispatches run in between, is given the id the counter held at the
    failed call, and registers its session under it. *)
Theorem unknown_method_consumes_no_id s method_name args cs written :
  find_method method_name (api s) = None →
  let s' := (__getattr__ method_name args cs written s).1 in
  (∃ e, (__getattr__ method_name args cs written s).2 = Raise e
        ∧ ((connect cs s).2 = Return () → e = AttributeError method_name))
  ∧ sessions s' = sessions s
  ∧ counter s' = counter s
  ∧ issued s' = issued s
  ∧ ∀ ops method_name2 args2 cs2 written2 s2 ch,
      Forall (λ op, is_call op = false) ops →
      __getattr__ method_name2 args2 cs2 written2 (run ops s') = (s2, Return ch) →
      tx_session (tx ch) = counter s
      ∧ sessions s2 !! counter s = Some (rx ch)
      ∧ issued s2 = issued s ++ [counter s].
Proof.
  intros Hfind s'.
  assert (Heq : __getattr__ method_name args cs written s =
                ((connect cs s).1,
                 match (connect cs s).2 with
                 | Return _ => Raise (AttributeError method_name)
                 | Raise e => Raise e
                 end)).
  { unfold __getattr__, _invoke. by rewrite (invoke_start_unknown method_name args cs s Hfind). }
  subst s'. rewrite Heq. cbn [fst snd].
  destruct (connect_fields cs s) as (_&_&Hs&Hc&_&_&Hi).
  split_and!; [|done|done|done|].
  - destruct ((connect cs s).2) as [[]|e]; eauto. eexists. split; [done|]. done.
  - intros ops m2 args2 cs2 w2 s2 ch Hops Hcall. unfold __getattr__ in Hcall.
    apply invoke_spec in Hcall as (_ & _ & _ & _ & Htx & _ & Hiss & Hsess & _).
    destruct (run_keeps_counter ops (connect cs s).1 Hops) as [Hc' Hi'].
    rewrite Hc', Hc in Htx, Hsess, Hiss. rewrite Hi', Hi in Hiss.
    split_and!; [done| |done]. rewrite Hsess. apply lookup_insert_eq.
Qed.

(** C1, as the code has it.  In a dispatch of a method of the API on a
    connected service, the frame is written first: up to the write the id
    is not in the table and no handle has been returned, so a frame for
    that id handled while the write is awaited is dropped.  The receive
    side is registered when the write is over, in the step that returns
    the handle; a write that fails registers nothing.  When nothing runs
    in between, the dispatch has written the frame, then registered the
    session, then returned the handle. *)
Theorem write_then_register s p method_name method_id tx_tree rx_tree args cs :
  pipe s = Some p →
  find_method method_name (api s) = Some (method_id, tx_tree, rx_tree) →
  ids_below_counter s →
  let frame := msgpack_packb (VList [VInt (counter s); VInt method_id; VList args]) in
  let k := mkPending (counter s) tx_tree rx_tree in
  let s1 := emit [PipeWrite p frame] (next_counter s).2 in
  invoke_start method_name args cs s = (s1, Writing k)
  ∧ events s1 = events s ++ [PipeWrite p frame]
  ∧ sessions s1 = sessions s
  ∧ sessions s1 !! counter s = None
  ∧ (∀ message_type payload msg,
       frame_for (counter s) message_type payload msg → route msg s1 = (s1, Return ()))
  ∧ (∀ s2,
       invoke_finish k None s2 =
         (set_sessions (<[counter s := Rx_new rx_tree (name s2)]> (sessions s2)) s2,
          Return (mkChannel (Rx_new rx_tree (name s2)) (mkTx tx_tree (pipe s2) (counter s)))))
  ∧ (∀ s2 err, invoke_finish k (Some err) s2 = (s2, Raise (StreamError err)))
  ∧ _invoke method_name args cs None s =
      (set_sessions (<[counter s := Rx_new rx_tree (name s)]> (sessions s)) s1,
       Return (mkChannel (Rx_new rx_tree (name s)) (mkTx tx_tree (Some p) (counter s)))).
Proof.
  intros Hp Hfind Hids frame k s1.
  assert (Hstart : invoke_start method_name args cs s = (s1, Writing k))
    by apply (invoke_start_known method_name args cs s p method_id tx_tree rx_tree Hp Hfind).
  assert (Hno : sessions s1 !! counter s = None) by (apply Hids; lia).
  split_and!; try done.
  - intros mt pl msg Hmsg. by eapply route_unknown_session.
  - unfold _invoke. rewrite Hstart. unfold invoke_finish. simpl. by rewrite Hp.
Qed.

(** C2, as the code has it.  A dispatch of a name that the API does not
    have runs [connect] first and does nothing else: on a connected
    service it fails at once with the unknown-method error naming the
    method and leaves the object as it was; on a service that is not
    connected it is [connect] that decides, its error propagating and the
    unknown-method error following its success.  In no case is anything
    written to a handle. *)
Theorem unknown_method_after_connect s method_name args cs written :
  find_method method_name (api s) = None →
  __getattr__ method_name args cs written s =
    ((connect cs s).1,
     match (connect cs s).2 with
     | Return _ => Raise (AttributeError method_name)
     | Raise e => Raise e
     end)
  ∧ (is_Some (pipe s) →
       __getattr__ method_name args cs written s = (s, Raise (AttributeError method_name)))
  ∧ ∃ evs,
      events (__getattr__ method_name args cs written s).1 = events s ++ evs
      ∧ ∀ p data, PipeWrite p data ∉ evs.
Proof.
  intros Hfind.
  assert (Heq : __getattr__ method_name args cs written s =
                ((connect cs s).1,
                 match (connect cs s).2 with
                 | Return _ => Raise (AttributeError method_name)
                 | Raise e => Raise e
                 end)).
  { unfold __getattr__, _invoke. by rewrite (invoke_start_unknown method_name args cs s Hfind). }
  split_and!; [done| |].
  - intros [p Hp]. rewrite Heq. by rewrite (connect_connected cs s p Hp).
  - rewrite Heq. apply connect_no_write.
Qed.

(** A frame whose session field cannot be hashed takes the exception of
    the table lookup out of [on_read]. *)
Lemma route_unhashable msg session message_type payload s :
  slice3 msg ≫= unpack3 = Some (session, message_type, payload) →
  py_key session = None →
  route msg s = (s, Raise (TypeError "unhashable type")).
Proof. intros Hm Hk. unfold route. by rewrite Hm, Hk. Qed.

(** A frame that is not a list or a string, or has fewer than three
    fields, is skipped. *)
Lemma route_malformed msg s : slice3 msg ≫= unpack3 = None → route msg s = (s, Return ()).
Proof. intros Hm. unfold route. by rewrite Hm. Qed.

(** * Further properties *)

(** ** connect *)

Lemma race_app_failed fails cs errors s :
  Forall failed fails → race (fails ++ cs) errors s = race cs (collect fails errors) s.
Proof.
  revert errors. induction fails as [|[ep [err|p]] fails IH]; intros errors Hf; simpl; [done| |].
  - apply IH. by inversion Hf.
  - inversion Hf as [|? ? [err Herr] ?]. discriminate.
Qed.

Lemma cancellation_spec rest p : PipeClose p ∈ cancellation rest ↔ ∃ ep, (ep, inr p) ∈ rest.
Proof.
  induction rest as [|[ep [err|p0]] rest IH]; simpl.
  - split; [by intros ?%elem_of_nil | by intros [? ?%elem_of_nil]].
  - rewrite IH. split; intros [ep' Hin]; exists ep'.
    + by apply list_elem_of_further.
    + apply elem_of_cons in Hin as [?|?]; [done|done].
  - rewrite elem_of_cons, IH. split.
    + intros [[= ->]|[ep' Hin]]; [exists ep; apply list_elem_of_here|].
      exists ep'. by apply list_elem_of_further.
    + intros [ep' Hin]. apply elem_of_cons in Hin as [[= -> ->]|Hin]; [by left|].
      right. by exists ep'.
Qed.

Lemma cancellation_handles rest : cancellation rest = PipeClose <$> handles rest.
Proof.
  induction rest as [|[ep [err|p]] rest IH]; simpl; [done|exact IH|]. by rewrite IH.
Qed.

(** The first attempt to succeed, in completion order, wins the race:
    its handle becomes [pipe] and its endpoint [address], reading starts on
    it and the failures before it are forgotten.  After that each handle
    of an attempt that succeeds later is closed once, and nothing else is;
    in which order these closes come is left open. *)
Theorem connect_first_success_wins s fails ep p rest :
  pipe s = None →
  Forall failed fails →
  let s' := (connect (fails ++ (ep, inr p) :: rest) s).1 in
  (connect (fails ++ (ep, inr p) :: rest) s).2 = Return ()
  ∧ pipe s' = Some p
  ∧ address s' = Some ep
  ∧ ∃ closes,
      events s' =
        events s ++ ((λ ep, Connecting ep.1 ep.2) <$> endpoints s)
          ++ [SetNodelay p; ReadUntilClose p] ++ closes
      ∧ closes ≡ₚ PipeClose <$> handles rest
      ∧ ∀ p', PipeClose p' ∈ closes ↔ ∃ ep', (ep', inr p') ∈ rest.
Proof.
  intros Hp Hf s'. subst s'. unfold connect, _connected. rewrite Hp.
  rewrite (race_app_failed fails _ [] _ Hf). simpl.
  split_and!; try done. exists (cancellation rest). split_and!.
  - by rewrite <- !app_assoc.
  - by rewrite cancellation_handles.
  - intros p'. apply cancellation_spec.
Qed.

Lemma race_returns cs errors s :
  (race cs errors s).2 = Return () ↔ Exists succeeded cs.
Proof.
  revert errors. induction cs as [|[ep [err|p]] cs IH]; intros errors; simpl.
  - split; [done|]. by intros ?%Exists_nil.
  - rewrite IH, Exists_cons. split; [by right|]. by intros [[? ?]|?].
  - split; [|done]. intros _. apply Exists_cons. left. by exists p.
Qed.

(** [connect] returns normally exactly when the service was connected
    already or one of the attempts succeeds, and exactly then it leaves a
    live handle; otherwise it raises and leaves none. *)
Theorem connect_returns_iff s cs :
  ((connect cs s).2 = Return () ↔ is_Some (pipe s) ∨ Exists succeeded cs)
  ∧ ((connect cs s).2 = Return () ↔ is_Some (pipe (connect cs s).1)).
Proof.
  pose proof (connect_result cs s) as Hres. split.
  - unfold connect, _connected. destruct (pipe s) as [p|] eqn:Hp; simpl.
    + split; [intros _; left; eauto|done].
    + rewrite race_returns. split; [by right|]. by intros [[? ?]|?].
  - destruct ((connect cs s).2) as [[]|e]; [done|]. destruct Hres as [-> _].
    split; [done|]. by intros [? ?].
Qed.

(** Once [connect] has returned, every further [connect] returns at once
    and changes nothing, whatever attempts it could have made. *)
Theorem connect_again_is_noop s cs cs' :
  (connect cs s).2 = Return () →
  connect cs' (connect cs s).1 = ((connect cs s).1, Return ()).
Proof.
  intros Hret. pose proof (connect_result cs s) as Hres. rewrite Hret in Hres.
  destruct Hres as [p Hp]. by apply (connect_connected cs' _ p).
Qed.

Lemma dict_set_keys_NoDup {K V} `{EqDecision K} (k : K) (v : V) d :
  NoDup d.*1 → NoDup (dict_set k v d).*1.
Proof.
  induction d as [|[k' v'] d IH]; simpl; intros Hnd.
  - apply NoDup_singleton.
  - apply NoDup_cons in Hnd as [Hfresh Hnd]. destruct (decide (k = k')) as [->|Hne]; simpl.
    + by apply NoDup_cons.
    + apply NoDup_cons. split; [|by apply IH].
      intros Hin. apply list_elem_of_fmap in Hin as [[k1 v1] [-> Hin]]. simpl in *.
      apply elem_of_dict_set_inv in Hin as [[= -> ->]|Hin]; [done|].
      apply Hfresh. apply list_elem_of_fmap. by exists (k1, v1).
Qed.

Lemma collect_keys_NoDup cs errors : NoDup errors.*1 → NoDup (collect cs errors).*1.
Proof.
  revert errors. induction cs as [|[ep [err|p]] cs IH]; intros errors Hnd; simpl; [done| |].
  - apply IH. by apply dict_set_keys_NoDup.
  - by apply IH.
Qed.

Lemma collect_app cs1 cs2 errors : collect (cs1 ++ cs2) errors = collect cs2 (collect cs1 errors).
Proof. unfold collect. apply foldl_app. Qed.

(** When every attempt fails, the dictionary of errors from which the
    message is built has each endpoint once, however often it occurs in
    the list of endpoints; the cause it keeps for an endpoint is that of
    the last attempt on it to complete, and the text of the message reads
    that endpoint as host:port followed by this cause. *)
Theorem connect_failure_names_each_endpoint_once s cs :
  pipe s = None →
  cs.*1 ≡ₚ endpoints s →
  Forall failed cs →
  ∃ errors,
    (connect cs s).2 =
      Raise (Exception ("unable to establish connection: " +:+ error_msg errors))
    ∧ NoDup errors.*1
    ∧ (∀ ep, ep ∈ errors.*1 ↔ ep ∈ endpoints s)
    ∧ (∀ before host port cause after,
         cs = before ++ ((host, port), inl cause) :: after → (host, port) ∉ after.*1 →
         ((host, port), cause) ∈ errors
         ∧ ∃ message,
             (connect cs s).2 = Raise (Exception message)
             ∧ occurs_in (host +:+ ":" +:+ pretty port +:+ " " +:+ cause) message).
Proof.
  intros Hp Hperm Hf. exists (collect cs []).
  assert (Hc : (connect cs s).2 =
     Raise (Exception ("unable to establish connection: " +:+ error_msg (collect cs [])))).
  { unfold connect, _connected. rewrite Hp. by rewrite race_all_failed. }
  split_and!.
  - exact Hc.
  - apply collect_keys_NoDup. constructor.
  - intros ep. rewrite <- Hperm. split.
    + intros Hin. apply list_elem_of_fmap in Hin as [[ep' c] [-> Hin]].
      apply collect_from in Hin as [Hnil|Hcs]; [by apply elem_of_nil in Hnil|].
      apply list_elem_of_fmap. by exists (ep', inl c).
    + intros Hin. destruct (collect_names cs [] ep Hf (or_intror Hin)) as (c & Hc' & _).
      apply list_elem_of_fmap. by exists (ep, c).
  - intros before host port cause after -> Hnot.
    assert (Hin : ((host, port), cause) ∈ collect (before ++ ((host, port), inl cause) :: after) []).
    { rewrite collect_app. simpl. apply collect_keeps; [apply elem_of_dict_set_same|done]. }
    split; [exact Hin|]. eexists. split; [exact Hc|]. by apply error_msg_names.
Qed.

(** With no endpoint at all there is nothing to attempt: [connect] on a
    service that is not connected raises with an empty list of causes and
    leaves the object as it was. *)
Theorem connect_without_endpoints s cs :
  pipe s = None →
  endpoints s = [] →
  cs.*1 ≡ₚ endpoints s →
  connect cs s = (s, Raise (Exception "unable to establish connection: ")).
Proof.
  intros Hp He Hperm. rewrite He in Hperm. apply Permutation_nil_r in Hperm.
  apply fmap_nil_inv in Hperm as ->.
  unfold connect, _connected. rewrite Hp, He. simpl.
  destruct s; unfold emit; simpl. by rewrite app_nil_r.
Qed.

(** ** Teardown *)

(** A second teardown changes nothing, whether it comes from the caller,
    from the transport reporting the close, or from the finalizer. *)
Theorem teardown_is_idempotent s :
  disconnect (disconnect s) = disconnect s
  ∧ on_close (disconnect s) = disconnect s
  ∧ disconnect (on_close s) = on_close s
  ∧ __del__ (disconnect s) = disconnect s
  ∧ weak_wrapper (Some (disconnect s)) PipeClosed = Some (disconnect s, Return ()).
Proof.
  assert (Hd : disconnect (disconnect s) = disconnect s).
  { pose proof (disconnect_cases s) as Hd. destruct (pipe s) as [p|] eqn:Hp.
    - destruct Hd as (errs & -> & _). done.
    - rewrite Hd. unfold disconnect. by rewrite Hp. }
  unfold on_close, __del__, weak_wrapper, on_close. by rewrite !Hd.
Qed.

Lemma route_empty_table msg s : sessions s = ∅ → (route msg s).1 = s.
Proof.
  intros Hempty. destruct (route msg s) as [s' r] eqn:Hr.
  destruct (route_cases _ _ _ _ Hr) as [->|(k & mt & pl & r0 & _ & Hk & _)]; [done|].
  by rewrite Hempty in Hk.
Qed.

Lemma on_read_loop_empty_table msgs s :
  sessions s = ∅ →
  events (on_read_loop msgs s).1 = events s ∧ sessions (on_read_loop msgs s).1 = ∅.
Proof.
  revert s. induction msgs as [|[msg rest] msgs IH]; intros s Hempty; simpl;
    [by destruct (unpack_error (buffer s))|].
  pose proof (route_empty_table msg (set_buffer rest s) Hempty) as Hr.
  destruct (route msg (set_buffer rest s)) as [s1 [[]|e]]; simpl in Hr; subst s1.
  - apply (IH (set_buffer rest s)). done.
  - done.
Qed.

(** After the teardown of a live connection nothing is delivered any
    more: whatever bytes [on_read] is given, no receive side is pushed
    anything and the table stays empty.  The same holds after a
    [disconnect] that found no connection and an empty table. *)
Theorem nothing_delivered_after_disconnect s read_bytes :
  is_Some (pipe s) ∨ sessions s = ∅ →
  events (on_read read_bytes (disconnect s)).1 = events (disconnect s)
  ∧ sessions (on_read read_bytes (disconnect s)).1 = ∅.
Proof.
  intros Hlive.
  assert (Hempty : sessions (disconnect s) = ∅).
  { pose proof (disconnect_cases s) as Hd. destruct (pipe s) as [p|] eqn:Hp.
    - by destruct Hd as (errs & -> & _).
    - rewrite Hd. by destruct Hlive as [[? ?]|?]. }
  unfold on_read. apply (on_read_loop_empty_table _ (set_buffer _ (disconnect s))). done.
Qed.

Lemma race_cases cs errors s :
  (race cs errors s).1 = s
  ∨ ∃ ep p rest,
      (race cs errors s).1 =
        set_address (Some ep)
          (emit ([SetNodelay p; ReadUntilClose p] ++ cancellation rest) (set_pipe (Some p) s)).
Proof.
  revert errors. induction cs as [|[ep [err|p]] cs IH]; intros errors; simpl; [by left|apply IH|].
  right. by exists ep, p, cs.
Qed.

Lemma cancellation_no_read rest p : ReadUntilClose p ∉ cancellation rest.
Proof.
  intros Hin. pose proof (cancellation_events rest) as Hall.
  rewrite Forall_forall in Hall. specialize (Hall _ Hin).
  clear -Hin. induction rest as [|[ep [err|p0]] rest IH]; simpl in Hin.
  - by apply elem_of_nil in Hin.
  - auto.
  - apply elem_of_cons in Hin as [?|?]; [done|auto].
Qed.

Lemma connect_handles_accounted cs s :
  handles_accounted s → handles_accounted (connect cs s).1.
Proof.
  intros Hacc. unfold connect, _connected. destruct (pipe s) as [p0|] eqn:Hp0; [done|].
  set (s0 := emit ((λ ep, Connecting ep.1 ep.2) <$> endpoints s) s).
  assert (Hacc0 : ∀ p, ReadUntilClose p ∈ events s0 → PipeClose p ∈ events s).
  { intros p Hin. simpl in Hin. apply elem_of_app in Hin as [Hin|Hin].
    - destruct (Hacc p Hin) as [?|?]; [done|congruence].
    - apply list_elem_of_fmap in Hin as (? & ? & ?). done. }
  destruct (race_cases cs [] s0) as [->|(ep & p & rest & ->)].
  - intros p Hin. left. simpl. apply elem_of_app. left. by apply Hacc0.
  - intros p' Hin. simpl in Hin. rewrite !elem_of_app in Hin.
    destruct Hin as [[Hin|Hin]|Hin].
    + left. simpl. rewrite !elem_of_app. left. left. apply Hacc0. simpl.
      apply elem_of_app. by left.
    + apply list_elem_of_fmap in Hin as (? & ? & ?). done.
    + apply elem_of_cons in Hin as [?|Hin]; [done|].
      apply elem_of_cons in Hin as [[= ->]|Hin]; [by right|].
      by apply cancellation_no_read in Hin.
Qed.

Lemma disconnect_handles_accounted s :
  handles_accounted s →
  handles_accounted (disconnect s)
  ∧ ∀ p, ReadUntilClose p ∈ events (disconnect s) → PipeClose p ∈ events (disconnect s).
Proof.
  intros Hacc. pose proof (disconnect_cases s) as Hd. destruct (pipe s) as [p0|] eqn:Hp0.
  - destruct Hd as (errs & -> & Herrs).
    assert (Hall : ∀ p, ReadUntilClose p ∈ events s ++ PipeClose p0 :: errs →
                        PipeClose p ∈ events s ++ PipeClose p0 :: errs).
    { intros p Hin. apply elem_of_app in Hin as [Hin|Hin].
      - destruct (Hacc p Hin) as [?|Hlive]; apply elem_of_app; [by left|].
        rewrite Hp0 in Hlive. injection Hlive as ->. right. apply list_elem_of_here.
      - apply elem_of_cons in Hin as [?|Hin]; [done|]. rewrite Herrs in Hin.
        apply list_elem_of_fmap in Hin as (? & ? & ?). done. }
    split; [|exact Hall]. intros p Hin. left. by apply Hall.
  - rewrite Hd. split; [done|]. intros p Hin. destruct (Hacc p Hin) as [?|?]; [done|congruence].
Qed.

Lemma on_read_only_pushes read_bytes s :
  ∃ evs, events (on_read read_bytes s).1 = events s ++ evs ∧ Forall (λ e, is_push e = true) evs.
Proof.
  unfold on_read.
  destruct (on_read_loop_in_order (unpack_all (length (buffer s ++ read_bytes))
                                     (buffer s ++ read_bytes))
              (set_buffer (buffer s ++ read_bytes) s)) as (evs & sub & Hev & _ & Hall).
  exists evs. split; [done|]. clear -Hall. induction Hall as [|e m evs sub He _ IH]; [done|].
  constructor; [|done]. by destruct He as (k & mt & pl & -> & _).
Qed.

Lemma invoke_after_connect method_name args cs written s :
  pipe (_invoke method_name args cs written s).1 = pipe (connect cs s).1
  ∧ ∃ ws, events (_invoke method_name args cs written s).1 = events (connect cs s).1 ++ ws
          ∧ Forall (λ e, ∃ p data, e = PipeWrite p data) ws.
Proof.
  unfold _invoke, invoke_start. destruct (connect cs s) as [s0 [[]|e]]; simpl.
  - destruct (find_method method_name (api s0)) as [[[mid tx_tree] rx_tree]|]; simpl.
    + destruct (pipe s0) as [p|] eqn:Hp; simpl.
      * unfold invoke_finish. destruct written; simpl; (split; [done|]); eexists;
          (split; [done|]); repeat constructor; eauto.
      * split; [done|]. exists []. by rewrite app_nil_r.
    + split; [done|]. exists []. by rewrite app_nil_r.
  - split; [done|]. exists []. by rewrite app_nil_r.
Qed.

Lemma run_op_handles_accounted s op : handles_accounted s → handles_accounted (run_op s op).
Proof.
  intros Hacc. destruct op as [a|cs| | |bs|m args cs w]; simpl.
  - done.
  - by apply connect_handles_accounted.
  - by apply disconnect_handles_accounted.
  - by apply disconnect_handles_accounted.
  - destruct (on_read_only_pushes bs s) as (evs & Hev & Hall).
    destruct (on_read_fields bs s) as (_&_&_&_&Hp&_).
    intros p Hin. rewrite Hev in Hin |- *. rewrite Hp. apply elem_of_app in Hin as [Hin|Hin].
    + destruct (Hacc p Hin) as [?|?]; [left; apply elem_of_app; by left|by right].
    + rewrite Forall_forall in Hall. by specialize (Hall _ Hin).
  - unfold __getattr__. destruct (invoke_after_connect m args cs w s) as (Hp & ws & Hev & Hall).
    pose proof (connect_handles_accounted cs s Hacc) as Hacc1.
    intros p Hin. rewrite Hev in Hin |- *. rewrite Hp. apply elem_of_app in Hin as [Hin|Hin].
    + destruct (Hacc1 p Hin) as [?|?]; [left; apply elem_of_app; by left|by right].
    + rewrite Forall_forall in Hall. by destruct (Hall _ Hin) as (? & ? & ?).
Qed.

(** No handle is left behind: in every state a service can reach, each
    handle it has started to read from has been closed unless it is the
    live one, and once the finalizer has run, each has been closed. *)
Theorem handles_never_leak s :
  reachable s →
  handles_accounted s
  ∧ pipe (__del__ s) = None
  ∧ ∀ p, ReadUntilClose p ∈ events (__del__ s) → PipeClose p ∈ events (__del__ s).
Proof.
  intros Hreach.
  assert (Hacc : handles_accounted s).
  { revert s Hreach. apply reachable_ind'.
    - intros n eps p Hin. by apply elem_of_nil in Hin.
    - intros s op _. apply run_op_handles_accounted. }
  split_and!; [done| |by apply disconnect_handles_accounted].
  unfold __del__. pose proof (disconnect_cases s) as Hd. destruct (pipe s) eqn:Hp.
  - by destruct Hd as (errs & -> & _).
  - by rewrite Hd.
Qed.

Lemma drain_buffer fuel s : buffer (drain fuel s) = buffer s.
Proof.
  revert s. induction fuel as [|fuel IH]; intros s; simpl; [done|].
  destruct (popitem (sessions s)) as [[[k v] d]|]; [|done]. by rewrite IH.
Qed.

Lemma run_op_keeps_buffer s op : is_read op = false → buffer (run_op s op) = buffer s.
Proof.
  destruct op as [a|cs| | |bs|m args cs w]; simpl; intros Hr; try done.
  - by destruct (connect_fields cs s) as (_&_&_&_&_&?&_).
  - unfold disconnect. destruct (pipe s); [|done]. by rewrite drain_buffer.
  - unfold on_close, disconnect. destruct (pipe s); [|done]. by rewrite drain_buffer.
  - unfold __getattr__, _invoke, invoke_start.
    destruct (connect_fields cs s) as (_&_&_&_&_&Hb&_).
    destruct (connect cs s) as [s0 [[]|e]]; simpl in *; [|done].
    destruct (find_method m (api s0)) as [[[mid tx_tree] rx_tree]|]; simpl; [|done].
    destruct (pipe s0); simpl; [|done]. unfold invoke_finish. by destruct w.
Qed.

(** Only [on_read] touches the bytes kept in the unpacker.  A teardown
    and a new connection in particular leave them where they are, so the
    bytes of a frame that the old connection left incomplete are still in
    front of the first chunk that the new connection delivers. *)
Theorem unpacker_buffer_outlives_connection s ops read_bytes :
  Forall (λ op, is_read op = false) ops →
  buffer (run ops s) = buffer s
  ∧ on_read read_bytes (run ops s) =
      on_read_loop (unpack_all (length (buffer s ++ read_bytes)) (buffer s ++ read_bytes))
        (set_buffer (buffer s ++ read_bytes) (run ops s)).
Proof.
  intros Hall.
  assert (Hb : buffer (run ops s) = buffer s).
  { induction ops as [|op ops IH] using rev_ind; [done|].
    apply Forall_app in Hall as [Hops Hop]. rewrite run_snoc.
    rewrite run_op_keeps_buffer; [by apply IH|]. by inversion Hop. }
  split; [done|]. unfold on_read. by rewrite Hb.
Qed.

(** ** on_read *)

Lemma unpack_all_nothing fuel bs : unpacker_next bs = None → unpack_all fuel bs = [].
Proof. intros Hn. destruct fuel; simpl; [done|]. by rewrite Hn. Qed.

Lemma set_buffer_set_buffer b1 b2 s : set_buffer b2 (set_buffer b1 s) = set_buffer b2 s.
Proof. done. Qed.

(** A chunk that does not complete a frame: when the unpacker raises at
    the bytes it now holds, that error leaves [on_read], with nothing
    routed and the table as it was; otherwise the chunk is only kept,
    nothing is routed, and when the rest arrives the two chunks are
    handled exactly as if they had come as one. *)
Theorem split_frame_is_reassembled s chunk1 chunk2 :
  unpacker_next (buffer s ++ chunk1) = None →
  match unpack_error (buffer s ++ chunk1) with
  | None =>
      on_read chunk1 s = (set_buffer (buffer s ++ chunk1) s, Return ())
      ∧ on_read chunk2 (on_read chunk1 s).1 = on_read (chunk1 ++ chunk2) s
  | Some e =>
      (on_read chunk1 s).2 = Raise (UnpackError e)
      ∧ events (on_read chunk1 s).1 = events s
      ∧ sessions (on_read chunk1 s).1 = sessions s
      ∧ pipe (on_read chunk1 s).1 = pipe s
  end.
Proof.
  intros Hn.
  assert (H1 : on_read chunk1 s =
               on_read_loop [] (set_buffer (buffer s ++ chunk1) s)).
  { unfold on_read. by rewrite (unpack_all_nothing _ _ Hn). }
  rewrite H1. simpl. destruct (unpack_error (buffer s ++ chunk1)) as [e|]; [done|].
  split; [done|]. unfold on_read. simpl.
  by rewrite set_buffer_set_buffer, <- app_assoc.
Qed.

(** Which frames can have an effect.  Fields after the third are not
    looked at.  A byte string of three bytes or more is taken apart like
    the list of its first three bytes as integers.  A list or a byte
    string of fewer than three items, a string of any length and every
    value that is neither a list nor a byte string are skipped: the loop
    goes on with nothing changed. *)
Theorem frames_that_count s :
  (∀ a b c extra, route (VList (a :: b :: c :: extra)) s = route (VList [a; b; c]) s)
  ∧ (∀ l, (length l < 3)%nat → route (VList l) s = (s, Return ()))
  ∧ (∀ x y z extra,
       route (VBytes (x :: y :: z :: extra)) s =
       route (VList [VInt (Z.of_N (Byte.to_N x)); VInt (Z.of_N (Byte.to_N y));
                     VInt (Z.of_N (Byte.to_N z))]) s)
  ∧ (∀ b, (length b < 3)%nat → route (VBytes b) s = (s, Return ()))
  ∧ (∀ str, route (VStr str) s = (s, Return ()))
  ∧ (∀ msg, (∀ l, msg ≠ VList l) → (∀ b, msg ≠ VBytes b) → route msg s = (s, Return ())).
Proof.
  assert (Hstr : ∀ str, route (VStr str) s = (s, Return ())).
  { intros [|c1 [|c2 [|c3 str]]]; done. }
  split_and!.
  - done.
  - intros [|a [|b [|c l]]] Hlen; simpl in Hlen; try done. lia.
  - done.
  - intros [|x [|y [|z b]]] Hlen; simpl in Hlen; try done. lia.
  - exact Hstr.
  - intros [| | | | |b|l|] Hl Hb; try done; [by destruct (Hb b)|by destruct (Hl l)].
Qed.

(** The pushes that one call of [on_read] makes are made in the order of
    the frames of the chunk: they are, one for one and in order, frames
    that the unpacker gave, each pushed to the receive side its session
    field stands for.  [on_read] does nothing else to its collaborators. *)
Theorem on_read_pushes_in_frame_order s read_bytes :
  ∃ evs sub,
    events (on_read read_bytes s).1 = events s ++ evs
    ∧ sublist sub (frames (buffer s ++ read_bytes))
    ∧ Forall2 (λ e msg, ∃ k message_type payload,
                 e = RxPush k message_type payload ∧ frame_for k message_type payload msg)
        evs sub.
Proof.
  unfold on_read, frames.
  apply (on_read_loop_in_order _ (set_buffer (buffer s ++ read_bytes) s)).
Qed.

Lemma on_read_loop_buffer msgs s b :
  Forall hashable_session msgs.*1 →
  last (buffer s :: msgs.*2) = Some b →
  buffer (on_read_loop msgs s).1 = b.
Proof.
  revert s. induction msgs as [|[msg rest] msgs IH]; intros s Hall; simpl.
  - intros [= <-]. by destruct (unpack_error (buffer s)).
  - inversion Hall as [|? ? Hmsg Hrest]; subst.
    assert (Hret : (route msg (set_buffer rest s)).2 = Return ()).
    { unfold route.
      destruct (slice3 msg ≫= unpack3) as [[[session mt] pl]|] eqn:Hm; [|done].
      destruct (Hmsg _ _ _ Hm) as [[k|] ->]; [|done].
      simpl. by destruct (sessions s !! k). }
    destruct (route msg (set_buffer rest s)) as [s1 r] eqn:Hr. simpl in Hret. subst r.
    apply route_fields in Hr as (_&_&_&_&_&_&Hb&_). simpl in Hb.
    intros Hlast. apply IH; [done|]. rewrite Hb. exact Hlast.
Qed.

Lemma last_cons_default {A} (x : A) l : last (x :: l) = Some (default x (last l)).
Proof.
  revert x. induction l as [|y l IH]; intros x; [done|].
  change (last (x :: y :: l)) with (last (y :: l)). rewrite IH.
  by destruct l as [|z l].
Qed.

(** When the session field of every frame that the chunk completes can
    be hashed, [on_read] takes every complete frame out of the unpacker:
    what is left gives no further frame.  If the unpacker raises at what
    is left, that error leaves [on_read]; otherwise [on_read] returns
    normally and the unpacker holds exactly what is left. *)
Theorem on_read_returns_with_unpacker_drained s read_bytes :
  Forall hashable_session (frames (buffer s ++ read_bytes)) →
  let left := remainder (buffer s ++ read_bytes) in
  unpacker_next left = None
  ∧ match unpack_error left with
    | Some e => (on_read read_bytes s).2 = Raise (UnpackError e)
    | None =>
        (on_read read_bytes s).2 = Return ()
        ∧ buffer (on_read read_bytes s).1 = left
    end.
Proof.
  intros Hall left. subst left. unfold remainder, on_read, frames in *.
  set (bs := buffer s ++ read_bytes) in *.
  pose proof (on_read_loop_returns _ (set_buffer bs s) Hall) as Hret.
  pose proof (last_cons_default bs (unpack_all (length bs) bs).*2) as Hlast.
  pose proof (on_read_loop_buffer _ (set_buffer bs s) _ Hall Hlast) as Hb.
  rewrite Hb in Hret. split.
  - by apply (unpack_all_drained (length bs) bs _).
  - destruct (unpack_error _) as [e|]; [exact Hret|]. by split.
Qed.

(** [on_read] never registers a session and never touches the
    connection: an id that is not in the table is not in it afterwards,
    and the handle, the address, the API, the counter and the ids given
    out are as before. *)
Theorem on_read_registers_nothing s read_bytes :
  let s' := (on_read read_bytes s).1 in
  (∀ k, sessions s !! k = None → sessions s' !! k = None)
  ∧ dom (sessions s') ⊆ dom (sessions s)
  ∧ pipe s' = pipe s ∧ address s' = address s ∧ api s' = api s
  ∧ counter s' = counter s ∧ issued s' = issued s.
Proof.
  intros s'.
  assert (Habs : ∀ k, sessions s !! k = None → sessions s' !! k = None)
    by (intros k Hk; by apply on_read_absent).
  destruct (on_read_fields read_bytes s) as (_&_&?&?&?&?&?).
  split_and!; try done.
  intros k Hin. apply elem_of_dom in Hin. apply elem_of_dom.
  destruct (sessions s !! k) eqn:Hk; [done|]. rewrite (Habs k Hk) in Hin. by destruct Hin.
Qed.

(** When the first frame that a chunk completes has a session field that
    cannot be hashed, [on_read] raises at it with nothing delivered, and
    the frames behind it stay in the unpacker: they are the frames that
    the next call finds before it is given any byte. *)
Theorem unhashable_frame_leaves_the_rest_buffered s read_bytes msg others
    session message_type payload :
  frames (buffer s ++ read_bytes) = msg :: others →
  slice3 msg ≫= unpack3 = Some (session, message_type, payload) →
  py_key session = None →
  let s' := (on_read read_bytes s).1 in
  (on_read read_bytes s).2 = Raise (TypeError "unhashable type")
  ∧ events s' = events s
  ∧ sessions s' = sessions s
  ∧ frames (buffer s' ++ []) = others.
Proof.
  intros Hframes Hm Hk s'. subst s'. unfold on_read, frames in *.
  set (bs := buffer s ++ read_bytes) in *.
  destruct (length bs) as [|n] eqn:Hlen; [done|]. simpl in *.
  destruct (unpacker_next bs) as [[v rest]|] eqn:Hn; [|done]. simpl in *.
  injection Hframes as -> <-.
  rewrite (route_unhashable msg session message_type payload _ Hm Hk). simpl.
  split_and!; try done. rewrite app_nil_r. f_equal.
  apply unpacker_next_shorter in Hn. apply unpack_all_fuel; lia.
Qed.

(** ** _invoke *)

(** The lookup of a method name in the API: it fails exactly when no
    entry has that name, and when several entries have it, the first one in
    the order of the dictionary is taken. *)
Theorem find_method_takes_first_entry (method_name : string)
    (items : list (Z * (string * Tree * Tree))) :
  (find_method method_name items = None ↔ ∀ item, item ∈ items → item.2.1.1 ≠ method_name)
  ∧ (∀ method_id tx_tree rx_tree,
       find_method method_name items = Some (method_id, tx_tree, rx_tree) ↔
       ∃ before after,
         items = before ++ (method_id, (method_name, tx_tree, rx_tree)) :: after
         ∧ ∀ item, item ∈ before → item.2.1.1 ≠ method_name).
Proof.
  induction items as [|[mid [[m t] r]] items [IHn IHs]]; simpl.
  - split; [split; [by intros _ ? ?%elem_of_nil|done]|].
    intros mid t r. split; [done|]. intros ([|? ?] & after & Heq & _); done.
  - destruct (decide (m = method_name)) as [->|Hne].
    + split.
      * split; [done|]. intros Hall. by destruct (Hall _ (list_elem_of_here _ _)).
      * intros mid' t' r'. split.
        -- intros [= -> -> ->]. exists [], items. split; [done|]. by intros ? ?%elem_of_nil.
        -- intros ([|b before] & after & Heq & Hbefore); simpl in Heq.
           ++ by injection Heq as -> -> -> _.
           ++ injection Heq as <- _. by destruct (Hbefore _ (list_elem_of_here _ _)).
    + split.
      * rewrite IHn. split.
        -- intros Hall item Hin. apply elem_of_cons in Hin as [->|Hin]; [done|by apply Hall].
        -- intros Hall item Hin. apply Hall. by apply list_elem_of_further.
      * intros mid' t' r'. rewrite IHs. split.
        -- intros (before & after & -> & Hbefore). exists ((mid, (m, t, r)) :: before), after.
           split; [done|]. intros item Hin.
           apply elem_of_cons in Hin as [->|Hin]; [done|by apply Hbefore].
        -- intros ([|b before] & after & Heq & Hbefore); simpl in Heq.
           ++ injection Heq as _ ? _ _. congruence.
           ++ injection Heq as _ ->. exists before, after. split; [done|].
              intros item Hin. apply Hbefore. by apply list_elem_of_further.
Qed.

(** When [connect] fails inside a dispatch, the dispatch fails with the
    very same exception, whatever the method name: no id is taken, no
    session is registered and nothing is written. *)
Theorem dispatch_propagates_connect_failure s method_name args cs written e :
  (connect cs s).2 = Raise e →
  _invoke method_name args cs written s = ((connect cs s).1, Raise e)
  ∧ sessions (connect cs s).1 = sessions s
  ∧ counter (connect cs s).1 = counter s
  ∧ issued (connect cs s).1 = issued s
  ∧ pipe (connect cs s).1 = None
  ∧ ∃ evs, events (connect cs s).1 = events s ++ evs ∧ ∀ p data, PipeWrite p data ∉ evs.
Proof.
  intros Hfail. destruct (connect_fields cs s) as (_&_&?&?&_&_&?).
  pose proof (connect_result cs s) as Hres. rewrite Hfail in Hres. destruct Hres as [? _].
  split_and!; try done; [|apply connect_no_write].
  unfold _invoke, invoke_start. destruct (connect cs s) as [s1 r]. simpl in Hfail. by subst r.
Qed.

(** A dispatch on a service that is not connected is the connection
    followed by the dispatch on the connected service. *)
Theorem dispatch_connects_first s method_name args cs cs' written :
  (connect cs s).2 = Return () →
  _invoke method_name args cs written s = _invoke method_name args cs' written (connect cs s).1.
Proof.
  intros Hret. pose proof (connect_result cs s) as Hres. rewrite Hret in Hres.
  destruct Hres as [p Hp]. pose proof (connect_connected cs' _ p Hp) as Hagain.
  unfold _invoke, invoke_start. rewrite Hagain.
  destruct (connect cs s) as [s1 r]. simpl in *. by subst r.
Qed.

(** A write that fails costs its id: the dispatch fails with the error
    of the write after the frame has been handed to the handle, nothing is
    registered, and the id that the counter gave out is not given again:
    the next dispatch gets the one after it. *)
Theorem failed_write_burns_the_id s p method_name method_id tx_tree rx_tree args cs err :
  pipe s = Some p →
  find_method method_name (api s) = Some (method_id, tx_tree, rx_tree) →
  let s' := (_invoke method_name args cs (Some err) s).1 in
  (_invoke method_name args cs (Some err) s).2 = Raise (StreamError err)
  ∧ events s' =
      events s ++ [PipeWrite p (msgpack_packb (VList [VInt (counter s); VInt method_id; VList args]))]
  ∧ sessions s' = sessions s
  ∧ counter s' = counter s + 1
  ∧ issued s' = issued s ++ [counter s]
  ∧ ∀ method_name2 args2 cs2 s2 ch,
      _invoke method_name2 args2 cs2 None s' = (s2, Return ch) →
      tx_session (tx ch) = counter s + 1.
Proof.
  intros Hp Hfind s'.
  assert (Heq : _invoke method_name args cs (Some err) s =
                (emit [PipeWrite p (msgpack_packb
                                      (VList [VInt (counter s); VInt method_id; VList args]))]
                   (next_counter s).2,
                 Raise (StreamError err))).
  { unfold _invoke.
    by rewrite (invoke_start_known method_name args cs s p method_id tx_tree rx_tree Hp Hfind). }
  subst s'. rewrite Heq. cbn [fst snd]. split_and!; try done.
  intros m2 args2 cs2 s2 ch Hcall.
  by apply invoke_spec in Hcall as (_ & _ & _ & _ & Htx & _).
Qed.

(** Two dispatches whose writes overlap: both frames are written in the
    order of the calls under consecutive ids, and whichever write is over
    first, the service ends in the state that the two dispatches leave
    when they run one after the other, with both sessions registered. *)
Theorem overlapping_dispatches_commute s p m1 id1 tx1 rx1 args1 m2 id2 tx2 rx2 args2 cs1 cs2 :
  pipe s = Some p →
  find_method m1 (api s) = Some (id1, tx1, rx1) →
  find_method m2 (api s) = Some (id2, tx2, rx2) →
  let k1 := mkPending (counter s) tx1 rx1 in
  let k2 := mkPending (counter s + 1) tx2 rx2 in
  let sequential := (_invoke m2 args2 cs2 None (_invoke m1 args1 cs1 None s).1).1 in
  ∃ s1 s2,
    invoke_start m1 args1 cs1 s = (s1, Writing k1)
    ∧ invoke_start m2 args2 cs2 s1 = (s2, Writing k2)
    ∧ (invoke_finish k2 None (invoke_finish k1 None s2).1).1 = sequential
    ∧ (invoke_finish k1 None (invoke_finish k2 None s2).1).1 = sequential
    ∧ sessions sequential =
        <[counter s + 1 := Rx_new rx2 (name s)]> (<[counter s := Rx_new rx1 (name s)]> (sessions s))
    ∧ events sequential =
        events s
          ++ [PipeWrite p (msgpack_packb (VList [VInt (counter s); VInt id1; VList args1]));
              PipeWrite p (msgpack_packb (VList [VInt (counter s + 1); VInt id2; VList args2]))].
Proof.
  intros Hp Hf1 Hf2 k1 k2 sequential.
  pose proof (invoke_start_known m1 args1 cs1 s p id1 tx1 rx1 Hp Hf1) as H1.
  set (s1 := emit [PipeWrite p (msgpack_packb (VList [VInt (counter s); VInt id1; VList args1]))]
               (next_counter s).2) in *.
  pose proof (invoke_start_known m2 args2 cs2 s1 p id2 tx2 rx2 Hp Hf2) as H2.
  set (s1' := (_invoke m1 args1 cs1 None s).1).
  assert (Hs1' : s1' = set_sessions (<[counter s := Rx_new rx1 (name s)]> (sessions s)) s1).
  { subst s1'. unfold _invoke. by rewrite H1. }
  pose proof (invoke_start_known m2 args2 cs2 s1' p id2 tx2 rx2) as H2'.
  rewrite Hs1' in H2'. specialize (H2' Hp Hf2).
  assert (Hseq : sequential =
    set_sessions (<[counter s + 1 := Rx_new rx2 (name s)]>
                    (<[counter s := Rx_new rx1 (name s)]> (sessions s)))
      (emit [PipeWrite p (msgpack_packb (VList [VInt (counter s + 1); VInt id2; VList args2]))]
         (next_counter s1).2)).
  { subst sequential. fold s1'. rewrite Hs1'. unfold _invoke. rewrite H2'. done. }
  eexists _, _. split; [exact H1|]. split; [exact H2|]. rewrite Hseq. simpl.
  split_and!; try done.
  - unfold set_sessions; simpl. f_equal. apply insert_insert_ne. lia.
  - by rewrite <- app_assoc.
Qed.

Lemma reachable_keys_positive s : reachable s → ∀ k r, sessions s !! k = Some r → 1 ≤ k.
Proof.
  revert s. apply (reachable_ind' (λ s, ∀ k r, sessions s !! k = Some r → 1 ≤ k));
    [by intros n eps k r|].
  intros s op Hreach Hpos k r Hk.
  destruct (decide (1 ≤ k)) as [|Hlow]; [done|]. exfalso.
  assert (Hno : sessions s !! k = None).
  { destruct (sessions s !! k) eqn:Hs; [|done]. specialize (Hpos _ _ Hs). lia. }
  destruct (reachable_issued s Hreach) as [_ Hc].
  destruct (run_op_absent k s op Hno ltac:(lia)) as (Hno' & _). congruence.
Qed.

(** The keys of the table are ids that the counter has given out: in
    every state a service can reach, each session of the table sits under
    an id between 1 and the counter, one of the ids given out so far. *)
Theorem table_keys_are_issued_ids s k r :
  reachable s →
  sessions s !! k = Some r →
  1 ≤ k < counter s ∧ k ∈ issued s.
Proof.
  intros Hreach Hk.
  assert (Hlow : 1 ≤ k) by by eapply reachable_keys_positive.
  assert (Hhigh : k < counter s).
  { destruct (decide (k < counter s)) as [|Hge]; [done|].
    rewrite (reachable_ids_below_counter s Hreach k) in Hk by lia. done. }
  split; [done|]. destruct (reachable_issued s Hreach) as [-> _].
  apply elem_of_seqZ. lia.
Qed.

(** A frame for the id of a dispatch that has returned reaches the
    receive side of the channel that the caller holds: it is pushed to the
    receive side built for the method, which stays registered under the id
    unless the frame closes it. *)
Theorem reply_reaches_the_channel s method_name args cs s' ch message_type payload msg :
  _invoke method_name args cs None s = (s', Return ch) →
  frame_for (tx_session (tx ch)) message_type payload msg →
  let k := tx_session (tx ch) in
  let r := Rx_push message_type payload (rx ch) in
  sessions s' !! k = Some (rx ch)
  ∧ (route msg s').2 = Return ()
  ∧ events (route msg s').1 = events s' ++ [RxPush k message_type payload]
  ∧ sessions (route msg s').1 !! k = (if Rx_closed r then None else Some r).
Proof.
  intros Hcall Hmsg k r.
  apply invoke_spec in Hcall as (_ & _ & _ & _ & Htx & _ & _ & Hsess & _).
  assert (Hk : sessions s' !! k = Some (rx ch)).
  { subst k. rewrite Hsess, Htx. apply lookup_insert_eq. }
  rewrite (route_known_session k message_type payload msg s' (rx ch) Hmsg Hk). simpl.
  split_and!; try done. fold r.
  destruct (Rx_closed r); [apply lookup_delete_eq|apply lookup_insert_eq].
Qed.

End Properties.

(** * Concrete runs *)

Section Runs.
Import Sample.

Example pack_echo_frame :
  sample_packb (VList [VInt 1; VInt 1; VList [VStr "x"]]) = [x93; x01; x01; x91; xa1; x78].
Proof. reflexivity. Qed.

Example echo_service_connected :
  pipe echo_service = Some 7%nat
  ∧ address echo_service = Some ("a", 1)
  ∧ events echo_service = [Connecting "a" 1; Connecting "b" 2; SetNodelay 7%nat; ReadUntilClose 7%nat].
Proof. vm_compute. done. Qed.

Example connect_two_failures :
  connect [(("b", 2), inl "timed out"); (("a", 1), inl "refused")] fresh_service =
    (emit [Connecting "a" 1; Connecting "b" 2] fresh_service,
     Raise (Exception "unable to establish connection: b:2 timed out, a:1 refused")).
Proof. vm_compute. reflexivity. Qed.

Example connect_second_wins :
  let s := (connect [(("a", 1), inl "refused"); (("b", 2), inr 7%nat)] fresh_service).1 in
  pipe s = Some 7%nat ∧ address s = Some ("b", 2).
Proof. vm_compute. done. Qed.

Example disconnect_two_sessions :
  events (disconnect echo_open) =
    events echo_open ++ [PipeClose 7%nat;
                         RxError 2 (DisconnectionError "echo-service");
                         RxError 1 (DisconnectionError "echo-service")]
  ∧ sessions (disconnect echo_open) = ∅
  ∧ pipe (disconnect echo_open) = None
  ∧ disconnect (disconnect echo_open) = disconnect echo_open.
Proof. vm_compute. done. Qed.

Lemma echo_open_reachable : reachable echo_open.
Proof.
  exists "echo-service", [("a", 1); ("b", 2)],
    [OpSetApi echo_api;
     OpConnect [(("a", 1), inr 7%nat); (("b", 2), inl "refused")];
     OpCall "echo" [VStr "x"] [] None; OpCall "echo" [VStr "y"] [] None].
  vm_compute. reflexivity.
Qed.

Lemma echo_service_reachable : reachable echo_service.
Proof.
  exists "echo-service", [("a", 1); ("b", 2)],
    [OpSetApi echo_api;
     OpConnect [(("a", 1), inr 7%nat); (("b", 2), inl "refused")]].
  vm_compute. reflexivity.
Qed.

(** C1 fails as stated: when echo("x") has made its write and waits for
    it, id 1 is not in the table; the reply [1, 0, "reply"] read at that
    point finds no session and leaves no trace; the session is registered
    only when the dispatch goes on. *)
Lemma reply_before_registration_is_dropped :
  let reply := sample_packb (VList [VInt 1; VInt 0; VStr "reply"]) in
  ∃ s1 k,
    invoke_start "echo" [VStr "x"] [] echo_service = (s1, Writing k)
    ∧ events s1 =
        events echo_service
          ++ [PipeWrite 7%nat (sample_packb (VList [VInt 1; VInt 1; VList [VStr "x"]]))]
    ∧ pending_counter k = 1
    ∧ sessions s1 !! 1 = None
    ∧ frames (buffer s1 ++ reply) = [VList [VInt 1; VInt 0; VStr "reply"]]
    ∧ on_read reply s1 = (s1, Return ())
    ∧ sessions (invoke_finish k None (on_read reply s1).1).1 !! 1
      = Some (sample_new [1] "echo-service").
Proof. do 2 eexists. split; [reflexivity|]. vm_compute. done. Qed.

Lemma write_then_register_witness :
  pipe echo_service = Some 7%nat
  ∧ find_method "echo" (api echo_service) = Some (1, [], [1])
  ∧ ids_below_counter echo_service
  ∧ invoke_start "echo" [VStr "x"] [] echo_service =
      (emit [PipeWrite 7%nat (sample_packb (VList [VInt 1; VInt 1; VList [VStr "x"]]))]
         (next_counter echo_service).2,
       Writing (mkPending 1 [] [1])).
Proof.
  assert (Hids : ids_below_counter echo_service)
    by exact (reachable_ids_below_counter echo_service echo_service_reachable).
  split_and!; [reflexivity|reflexivity|exact Hids|].
  exact (proj1 (write_then_register echo_service 7%nat "echo" 1 [] [1] [VStr "x"] []
                  eq_refl eq_refl Hids)).
Defined.

(** C2 fails as stated: on a service that is not connected, the call of a
    name that the API does not have launches the connection attempts; when
    they fail the caller gets the connection error, and when one succeeds
    the handle is kept live before the unknown-method error is raised. *)
Lemma unknown_method_connects_first :
  _invoke "nope" [] [(("a", 1), inl "refused"); (("b", 2), inl "refused")] None fresh_service =
    (emit [Connecting "a" 1; Connecting "b" 2] fresh_service,
     Raise (Exception "unable to establish connection: a:1 refused, b:2 refused"))
  ∧ _invoke "nope" [] [(("a", 1), inr 7%nat); (("b", 2), inl "refused")] None fresh_service =
    (set_address (Some ("a", 1))
       (set_pipe (Some 7%nat)
          (emit [Connecting "a" 1; Connecting "b" 2; SetNodelay 7%nat; ReadUntilClose 7%nat]
             fresh_service)),
     Raise (AttributeError "nope")).
Proof. vm_compute. done. Qed.

Lemma unknown_method_after_connect_witness :
  find_method "nope" (api echo_service) = None
  ∧ __getattr__ "nope" [VInt 3] [] None echo_service = (echo_service, Raise (AttributeError "nope")).
Proof.
  split; [reflexivity|].
  destruct (unknown_method_after_connect echo_service "nope" [VInt 3] [] None eq_refl)
    as (_ & Hconnected & _).
  apply Hconnected. by exists 7%nat.
Defined.

(** C3 at a frame whose session field is a map.  Sessions 1 and 2 are
    open and the chunk holds [{}, 0, 0] followed by [1, 0, "reply"]:
    [on_read] raises at the first frame and the reply is not pushed to
    session 1, which gets it when the chunk holds the reply alone. *)
Lemma on_read_unhashable_session_raises :
  let bad := sample_packb (VList [VDict []; VInt 0; VInt 0]) in
  let reply := sample_packb (VList [VInt 1; VInt 0; VStr "reply"]) in
  bad = [x93; x80; x00; x00]
  ∧ frames (bad ++ reply) = [VList [VDict []; VInt 0; VInt 0]; VList [VInt 1; VInt 0; VStr "reply"]]
  ∧ is_Some (sessions echo_open !! 1)
  ∧ (on_read (bad ++ reply) echo_open).2 = Raise (TypeError "unhashable type")
  ∧ events (on_read (bad ++ reply) echo_open).1 = events echo_open
  ∧ (on_read reply echo_open).2 = Return ()
  ∧ events (on_read reply echo_open).1 = events echo_open ++ [RxPush 1 (VInt 0) (VStr "reply")].
Proof. vm_compute. split_and!; eauto. Qed.

Lemma connect_all_attempts_fail_witness :
  let cs : list Attempt := [(("b", 2), inl "timed out"); (("a", 1), inl "refused")] in
  pipe fresh_service = None
  ∧ cs.*1 ≡ₚ endpoints fresh_service
  ∧ Forall failed cs
  ∧ (connect cs fresh_service).2
    = Raise (Exception "unable to establish connection: b:2 timed out, a:1 refused")
  ∧ ∃ errors,
      connect cs fresh_service =
        (emit ((λ ep, Connecting ep.1 ep.2) <$> endpoints fresh_service) fresh_service,
         Raise (Exception ("unable to establish connection: " +:+ error_msg errors)))
      ∧ (∀ ep, ep ∈ endpoints fresh_service → ∃ cause, (ep, cause) ∈ errors ∧ (ep, inl cause) ∈ cs)
      ∧ (∀ host port, (host, port) ∈ endpoints fresh_service →
           ∃ cause message,
             ((host, port), inl cause) ∈ cs
             ∧ (connect cs fresh_service).2 = Raise (Exception message)
             ∧ occurs_in (host +:+ ":" +:+ pretty port +:+ " " +:+ cause) message).
Proof.
  intros cs.
  assert (Hperm : cs.*1 ≡ₚ endpoints fresh_service) by apply Permutation_swap.
  assert (Hfail : Forall failed cs) by (repeat constructor; eexists; reflexivity).
  split_and!; [reflexivity|exact Hperm|exact Hfail|vm_compute; reflexivity|].
  destruct (connect_all_attempts_fail fresh_service cs eq_refl Hperm Hfail)
    as (errors & Hc & _ & Hnames & _ & _ & Htext).
  exists errors. split_and!; [exact Hc|exact Hnames|exact Htext].
Defined.

(** C6 fails as stated: echo("x") has made its write and waits for it;
    [disconnect] closes the handle and drains the table; the dispatch then
    goes on and registers session 1, which leaves a session in the table
    of a service that has no connection. *)
Lemma dispatch_resumed_after_disconnect :
  ∃ s1 k,
    invoke_start "echo" [VStr "x"] [] echo_service = (s1, Writing k)
    ∧ pipe (disconnect s1) = None
    ∧ sessions (disconnect s1) = ∅
    ∧ pipe (invoke_finish k None (disconnect s1)).1 = None
    ∧ sessions (invoke_finish k None (disconnect s1)).1 = {[1 := sample_new [1] "echo-service"]}
    ∧ ¬ table_needs_pipe (invoke_finish k None (disconnect s1)).1.
Proof.
  do 2 eexists. split; [reflexivity|]. split_and!; try (vm_compute; reflexivity).
  intros Hinv. destruct Hinv as [p Hp]; [|vm_compute in Hp; discriminate].
  intros Hempty. apply (f_equal (λ m : gmap Z SampleRx, m !! 1)) in Hempty.
  vm_compute in Hempty. discriminate.
Qed.

Lemma closed_session_is_forgotten_witness :
  let msg := VList [VInt 1; VInt 1; VStr "done"] in
  ids_below_counter echo_open
  ∧ frame_for 1 (VInt 1) (VStr "done") msg
  ∧ sessions echo_open !! 1 = Some (sample_new [1] "echo-service")
  ∧ Rx_closed (Rx_push (VInt 1) (VStr "done") (sample_new [1] "echo-service")) = true
  ∧ route msg echo_open =
      (set_sessions (delete 1 (sessions echo_open))
         (emit [RxPush 1 (VInt 1) (VStr "done")] echo_open),
       Return ()).
Proof.
  intros msg.
  assert (Hids : ids_below_counter echo_open)
    by exact (reachable_ids_below_counter echo_open echo_open_reachable).
  assert (Hmsg : frame_for 1 (VInt 1) (VStr "done") msg) by (exists (VInt 1); by split).
  split_and!; [exact Hids|exact Hmsg|reflexivity|reflexivity|].
  exact (proj1 (closed_session_is_forgotten echo_open msg 1 (VInt 1) (VStr "done")
                  (sample_new [1] "echo-service") Hids Hmsg eq_refl eq_refl)).
Defined.

Lemma echo_scenario_witness :
  api echo_service = [(1, ("echo", [], [1]))]
  ∧ pipe echo_service = Some 7%nat
  ∧ counter echo_service = 1
  ∧ ∃ s',
      __getattr__ "echo" [VStr "x"] [] None echo_service =
        (s', Return (mkChannel (sample_new [1] "echo-service") (mkTx [] (Some 7%nat) 1)))
      ∧ events s' = events echo_service ++ [PipeWrite 7%nat [x93; x01; x01; x91; xa1; x78]]
      ∧ sessions s' = {[1 := sample_new [1] "echo-service"]}.
Proof.
  split_and!; [reflexivity|reflexivity|reflexivity|].
  destruct (echo_scenario echo_service 7%nat [] [1] [] eq_refl eq_refl eq_refl)
    as (s' & Hcall & Hev & Hsess & _).
  exists s'. split_and!; [exact Hcall|exact Hev|exact Hsess].
Defined.

Lemma unknown_method_consumes_no_id_witness :
  find_method "nope" (api echo_service) = None
  ∧ sessions (__getattr__ "nope" [] [] None echo_service).1 = sessions echo_service
  ∧ counter (__getattr__ "nope" [] [] None echo_service).1 = counter echo_service.
Proof.
  split; [reflexivity|].
  destruct (unknown_method_consumes_no_id echo_service "nope" [] [] None eq_refl)
    as (_ & Hs & Hc & _).
  by split.
Defined.

(** ** Runs for the further properties *)

Lemma connect_first_success_wins_witness :
  let fails : list Attempt := [(("b", 2), inl "refused")] in
  let rest : list Attempt := [(("a", 1), inr 8%nat)] in
  let s' := (connect (fails ++ (("a", 1), inr 7%nat) :: rest) doubled_service).1 in
  pipe doubled_service = None
  ∧ Forall failed fails
  ∧ pipe s' = Some 7%nat
  ∧ address s' = Some ("a", 1)
  ∧ ∃ closes,
      events s' =
        events doubled_service ++ ((λ ep, Connecting ep.1 ep.2) <$> endpoints doubled_service)
          ++ [SetNodelay 7%nat; ReadUntilClose 7%nat] ++ closes
      ∧ closes ≡ₚ [PipeClose 8%nat].
Proof.
  intros fails rest s'.
  assert (Hfail : Forall failed fails) by (repeat constructor; eexists; reflexivity).
  destruct (connect_first_success_wins doubled_service fails ("a", 1) 7%nat rest eq_refl Hfail)
    as (_ & Hp & Ha & closes & Hev & Hperm & _).
  split_and!; [reflexivity|exact Hfail|exact Hp|exact Ha|].
  exists closes. split; [exact Hev|exact Hperm].
Defined.

Lemma connect_again_is_noop_witness :
  let cs : list Attempt := [(("a", 1), inr 7%nat); (("b", 2), inl "refused")] in
  (connect cs fresh_service).2 = Return ()
  ∧ connect [(("b", 2), inr 8%nat)] (connect cs fresh_service).1
    = ((connect cs fresh_service).1, Return ()).
Proof.
  intros cs. split; [reflexivity|].
  exact (connect_again_is_noop fresh_service cs [(("b", 2), inr 8%nat)] eq_refl).
Defined.

Lemma connect_failure_names_each_endpoint_once_witness :
  let cs : list Attempt :=
    [(("a", 1), inl "refused"); (("b", 2), inl "timed out"); (("a", 1), inl "unreachable")] in
  pipe doubled_service = None
  ∧ cs.*1 ≡ₚ endpoints doubled_service
  ∧ Forall failed cs
  ∧ (connect cs doubled_service).2
    = Raise (Exception "unable to establish connection: a:1 unreachable, b:2 timed out")
  ∧ ∃ errors,
      (connect cs doubled_service).2 =
        Raise (Exception ("unable to establish connection: " +:+ error_msg errors))
      ∧ NoDup errors.*1
      ∧ (("a", 1), "unreachable") ∈ errors
      ∧ ∃ message,
          (connect cs doubled_service).2 = Raise (Exception message)
          ∧ occurs_in ("a" +:+ ":" +:+ pretty 1 +:+ " " +:+ "unreachable") message.
Proof.
  intros cs.
  assert (Hperm : cs.*1 ≡ₚ endpoints doubled_service) by reflexivity.
  assert (Hfail : Forall failed cs) by (repeat constructor; eexists; reflexivity).
  split_and!; [reflexivity|exact Hperm|exact Hfail|vm_compute; reflexivity|].
  destruct (connect_failure_names_each_endpoint_once doubled_service cs eq_refl Hperm Hfail)
    as (errors & Hc & Hnd & _ & Hlast).
  exists errors.
  destruct (Hlast [(("a", 1), inl "refused"); (("b", 2), inl "timed out")]
              "a" 1 "unreachable" [] eq_refl) as (Hin & Htext).
  { intros Hin. by apply elem_of_nil in Hin. }
  split_and!; [exact Hc|exact Hnd|exact Hin|exact Htext].
Defined.

Example connect_repeated_endpoint_message :
  (connect [(("a", 1), inl "refused"); (("b", 2), inl "timed out"); (("a", 1), inl "unreachable")]
     doubled_service).2
  = Raise (Exception "unable to establish connection: a:1 unreachable, b:2 timed out").
Proof. vm_compute. reflexivity. Qed.

Lemma connect_without_endpoints_witness :
  pipe lonely_service = None
  ∧ endpoints lonely_service = []
  ∧ connect [] lonely_service
    = (lonely_service, Raise (Exception "unable to establish connection: ")).
Proof.
  split_and!; [reflexivity|reflexivity|].
  apply connect_without_endpoints; reflexivity.
Defined.

Lemma nothing_delivered_after_disconnect_witness :
  (is_Some (pipe echo_open) ∨ sessions echo_open = ∅)
  ∧ events (on_read (sample_packb (VList [VInt 1; VInt 0; VStr "late"])) (disconnect echo_open)).1
    = events (disconnect echo_open).
Proof.
  assert (Hlive : is_Some (pipe echo_open) ∨ sessions echo_open = ∅)
    by (left; by exists 7%nat).
  split; [exact Hlive|].
  exact (proj1 (nothing_delivered_after_disconnect echo_open
                  (sample_packb (VList [VInt 1; VInt 0; VStr "late"])) Hlive)).
Defined.

Lemma handles_never_leak_witness :
  reachable echo_open
  ∧ pipe (__del__ echo_open) = None
  ∧ (ReadUntilClose 7%nat ∈ events (__del__ echo_open) →
     PipeClose 7%nat ∈ events (__del__ echo_open)).
Proof.
  destruct (handles_never_leak echo_open echo_open_reachable) as (_ & Hp & Hclosed).
  split_and!; [exact echo_open_reachable|exact Hp|exact (Hclosed 7%nat)].
Defined.

Lemma unpacker_buffer_outlives_connection_witness :
  let half := [x93; x01] in
  let s := (on_read half echo_open).1 in
  let ops : list Op := [OpDisconnect; OpConnect [(("a", 1), inr 8%nat)]] in
  Forall (λ op, is_read op = false) ops
  ∧ buffer s = half
  ∧ buffer (run ops s) = buffer s.
Proof.
  intros half s ops.
  assert (Hops : Forall (λ op : Op, is_read op = false) ops) by (repeat constructor).
  split_and!; [exact Hops|vm_compute; reflexivity|].
  exact (proj1 (unpacker_buffer_outlives_connection s ops [] Hops)).
Defined.

Lemma split_frame_is_reassembled_witness :
  let chunk1 := [x93; x01] in
  let chunk2 := [x00; xa2; x68; x69] in
  unpacker_next (buffer echo_open ++ chunk1) = None
  ∧ unpack_error (buffer echo_open ++ chunk1) = None
  ∧ frames (chunk1 ++ chunk2) = [VList [VInt 1; VInt 0; VStr "hi"]]
  ∧ on_read chunk2 (on_read chunk1 echo_open).1 = on_read (chunk1 ++ chunk2) echo_open
  ∧ unpacker_next (buffer echo_open ++ [xc1]) = None
  ∧ (on_read [xc1] echo_open).2 = Raise (UnpackError "unpack failed")
  ∧ events (on_read [xc1] echo_open).1 = events echo_open.
Proof.
  intros chunk1 chunk2.
  assert (Hn : unpacker_next (buffer echo_open ++ chunk1) = None) by (vm_compute; reflexivity).
  assert (He : unpack_error (buffer echo_open ++ chunk1) = None) by (vm_compute; reflexivity).
  assert (Hn' : unpacker_next (buffer echo_open ++ [xc1]) = None) by (vm_compute; reflexivity).
  assert (He' : unpack_error (buffer echo_open ++ [xc1]) = Some "unpack failed")
    by (vm_compute; reflexivity).
  pose proof (split_frame_is_reassembled echo_open chunk1 chunk2 Hn) as Hsplit.
  rewrite He in Hsplit.
  pose proof (split_frame_is_reassembled echo_open [xc1] [] Hn') as Hbad.
  rewrite He' in Hbad. destruct Hbad as (Hr & Hev & _).
  split_and!; [exact Hn|exact He|vm_compute; reflexivity|exact (proj2 Hsplit)|exact Hn'
              |exact Hr|exact Hev].
Defined.

Lemma on_read_returns_with_unpacker_drained_witness :
  let chunk := sample_packb (VList [VInt 1; VInt 0; VStr "hi"]) ++ [x93; x02] in
  Forall hashable_session (frames (buffer echo_open ++ chunk))
  ∧ remainder (buffer echo_open ++ chunk) = [x93; x02]
  ∧ unpacker_next [x93; x02] = None
  ∧ (on_read chunk echo_open).2 = Return ()
  ∧ buffer (on_read chunk echo_open).1 = [x93; x02].
Proof.
  intros chunk.
  assert (Hall : Forall hashable_session (frames (buffer echo_open ++ chunk))).
  { assert (Hf : frames (buffer echo_open ++ chunk) = [VList [VInt 1; VInt 0; VStr "hi"]])
      by (vm_compute; reflexivity).
    rewrite Hf. constructor; [|constructor].
    intros session mt pl [= <- _ _]. by eexists. }
  assert (Hleft : remainder (buffer echo_open ++ chunk) = [x93; x02])
    by (vm_compute; reflexivity).
  assert (He : unpack_error [x93; x02] = None) by (vm_compute; reflexivity).
  pose proof (on_read_returns_with_unpacker_drained echo_open chunk Hall) as Hd.
  cbv zeta in Hd. rewrite Hleft, He in Hd. destruct Hd as (Hn & Hret & Hb).
  split_and!; [exact Hall|exact Hleft|exact Hn|exact Hret|exact Hb].
Defined.

Lemma unhashable_frame_leaves_the_rest_buffered_witness :
  let bad := VList [VDict []; VInt 0; VInt 0] in
  let reply := VList [VInt 1; VInt 0; VStr "reply"] in
  let chunk := sample_packb bad ++ sample_packb reply in
  frames (buffer echo_open ++ chunk) = [bad; reply]
  ∧ py_key (VDict []) = None
  ∧ (on_read chunk echo_open).2 = Raise (TypeError "unhashable type")
  ∧ frames (buffer (on_read chunk echo_open).1 ++ []) = [reply].
Proof.
  intros bad reply chunk.
  assert (Hf : frames (buffer echo_open ++ chunk) = [bad; reply]) by (vm_compute; reflexivity).
  destruct (unhashable_frame_leaves_the_rest_buffered echo_open chunk bad [reply]
              (VDict []) (VInt 0) (VInt 0) Hf eq_refl eq_refl) as (Hraise & _ & _ & Hrest).
  split_and!; [exact Hf|reflexivity|exact Hraise|exact Hrest].
Defined.

Lemma dispatch_propagates_connect_failure_witness :
  let cs : list Attempt := [(("a", 1), inl "refused"); (("b", 2), inl "refused")] in
  (connect cs fresh_service).2
  = Raise (Exception "unable to establish connection: a:1 refused, b:2 refused")
  ∧ (_invoke "echo" [VStr "x"] cs None fresh_service).2
    = Raise (Exception "unable to establish connection: a:1 refused, b:2 refused").
Proof.
  intros cs.
  assert (Hc : (connect cs fresh_service).2
               = Raise (Exception "unable to establish connection: a:1 refused, b:2 refused"))
    by (vm_compute; reflexivity).
  split; [exact Hc|].
  destruct (dispatch_propagates_connect_failure fresh_service "echo" [VStr "x"] cs None _ Hc)
    as (Heq & _).
  by rewrite Heq.
Defined.

Lemma dispatch_connects_first_witness :
  let cs : list Attempt := [(("a", 1), inr 7%nat); (("b", 2), inl "refused")] in
  (connect cs fresh_service).2 = Return ()
  ∧ _invoke "echo" [VStr "x"] cs None fresh_service
    = _invoke "echo" [VStr "x"] [] None (connect cs fresh_service).1.
Proof.
  intros cs. split; [reflexivity|].
  exact (dispatch_connects_first fresh_service "echo" [VStr "x"] cs [] None eq_refl).
Defined.

Lemma failed_write_burns_the_id_witness :
  pipe echo_service = Some 7%nat
  ∧ find_method "echo" (api echo_service) = Some (1, [], [1])
  ∧ (_invoke "echo" [VStr "x"] [] (Some "stream is closed") echo_service).2
    = Raise (StreamError "stream is closed")
  ∧ counter (_invoke "echo" [VStr "x"] [] (Some "stream is closed") echo_service).1 = 2.
Proof.
  destruct (failed_write_burns_the_id echo_service 7%nat "echo" 1 [] [1] [VStr "x"] []
              "stream is closed" eq_refl eq_refl) as (Hr & _ & _ & Hc & _).
  split_and!; [reflexivity|reflexivity|exact Hr|exact Hc].
Defined.

Lemma overlapping_dispatches_commute_witness :
  pipe echo_service = Some 7%nat
  ∧ find_method "echo" (api echo_service) = Some (1, [], [1])
  ∧ ∃ s1 s2,
      invoke_start "echo" [VStr "x"] [] echo_service = (s1, Writing (mkPending 1 [] [1]))
      ∧ invoke_start "echo" [VStr "y"] [] s1 = (s2, Writing (mkPending 2 [] [1]))
      ∧ (invoke_finish (mkPending 1 [] [1]) None
           (invoke_finish (mkPending 2 [] [1]) None s2).1).1
        = (_invoke "echo" [VStr "y"] [] None (_invoke "echo" [VStr "x"] [] None echo_service).1).1.
Proof.
  split_and!; [reflexivity|reflexivity|].
  destruct (overlapping_dispatches_commute echo_service 7%nat
              "echo" 1 [] [1] [VStr "x"] "echo" 1 [] [1] [VStr "y"] [] [] eq_refl eq_refl eq_refl)
    as (s1 & s2 & H1 & H2 & _ & H21 & _).
  exists s1, s2. split_and!; [exact H1|exact H2|exact H21].
Defined.

Lemma table_keys_are_issued_ids_witness :
  reachable echo_open
  ∧ sessions echo_open !! 2 = Some (sample_new [1] "echo-service")
  ∧ 1 ≤ 2 < counter echo_open
  ∧ 2 ∈ issued echo_open.
Proof.
  assert (Hk : sessions echo_open !! 2 = Some (sample_new [1] "echo-service"))
    by (vm_compute; reflexivity).
  destruct (table_keys_are_issued_ids echo_open 2 _ echo_open_reachable Hk) as [Hb Hin].
  split; [exact echo_open_reachable|]. split; [exact Hk|]. split; [exact Hb|exact Hin].
Defined.

Lemma reply_reaches_the_channel_witness :
  let msg := VList [VInt 1; VInt 0; VStr "reply"] in
  ∃ s' ch,
    _invoke "echo" [VStr "x"] [] None echo_service = (s', Return ch)
    ∧ frame_for (tx_session (tx ch)) (VInt 0) (VStr "reply") msg
    ∧ events (route msg s').1 = events s' ++ [RxPush 1 (VInt 0) (VStr "reply")].
Proof.
  intros msg.
  destruct (_invoke "echo" [VStr "x"] [] None echo_service) as [s' r] eqn:Hcall.
  assert (Hr : ∃ ch, r = Return ch ∧ tx_session (tx ch) = 1).
  { assert (Hr' : (_invoke "echo" [VStr "x"] [] None echo_service).2
                  = Return (mkChannel (sample_new [1] "echo-service") (mkTx [] (Some 7%nat) 1)))
      by (vm_compute; reflexivity).
    rewrite Hcall in Hr'. simpl in Hr'. subst r. by eexists. }
  destruct Hr as (ch & -> & Htx).
  assert (Hmsg : frame_for (tx_session (tx ch)) (VInt 0) (VStr "reply") msg).
  { rewrite Htx. exists (VInt 1). by split. }
  exists s', ch. split_and!; [reflexivity|exact Hmsg|].
  destruct (reply_reaches_the_channel echo_service "echo" [VStr "x"] [] s' ch
              (VInt 0) (VStr "reply") msg Hcall Hmsg) as (_ & _ & Hev & _).
  by rewrite Htx in Hev.
Defined.

(** A byte string of three bytes is a frame: its bytes are the session
    id, the message type and the payload. *)
Example byte_string_frame_is_routed :
  frames [xc4; x03; x01; x00; x00] = [VBytes [x01; x00; x00]]
  ∧ (on_read [xc4; x03; x01; x00; x00] echo_open).2 = Return ()
  ∧ events (on_read [xc4; x03; x01; x00; x00] echo_open).1
    = events echo_open ++ [RxPush 1 (VInt 0) (VInt 0)].
Proof. vm_compute. done. Qed.

(** Bytes that begin no value: the frame in front of them is routed, then
    the error of the unpacker leaves [on_read]. *)
Example unpack_error_after_a_frame :
  let chunk := sample_packb (VList [VInt 1; VInt 0; VStr "hi"]) ++ [xc1] in
  (on_read chunk echo_open).2 = Raise (UnpackError "unpack failed")
  ∧ events (on_read chunk echo_open).1 = events echo_open ++ [RxPush 1 (VInt 0) (VStr "hi")].
Proof. vm_compute. done. Qed.

End Runs.
